(** * A shallow embedding of [LMAHeureuxPorosityDiffV2.py]

    The right-hand side of the L'Heureux limestone/marl diagenesis model,
    its Fiadeiro-Veronis upwind weight, the Jacobian sparsity pattern, the
    event predicates and the progress counter.  Floating-point numbers are
    read as exact reals; the floating-point traps set by [np.seterr] are not
    modelled (Rocq's [/ 0] is [0] where Python would raise). *)

From Stdlib Require Import Reals Lra Lia List Arith ZArith Sorted.
Import ListNotations.

Open Scope R_scope.

(** ** Arrays

    A numpy array (or the [.data] of a py-pde [ScalarField]) over the [N]
    depth cells is read as a function from the cell index to its value;
    array arithmetic is the pointwise lifting of the scalar operation,
    scalars broadcast as constant arrays. *)

Definition arr := nat -> R.

Definition cst (s : R) : arr := fun _ => s.
Definition amap (f : R -> R) (a : arr) : arr := fun i => f (a i).
Definition lift2 (op : R -> R -> R) (a b : arr) : arr := fun i => op (a i) (b i).

(** [x ** e] of numpy on a non-negative base and a real exponent: [0 ** 0]
    is [1], [0 ** e] is [0] for [e > 0]; for [e < 0] numpy signals a
    division by zero, which raises under [np.seterr(divide="raise")]. *)
Definition npow (x e : R) : R :=
  if Req_dec_T x 0 then (if Req_dec_T e 0 then 1 else 0) else Rpower x e.

Declare Scope arr_scope.
Delimit Scope arr_scope with arr.
Infix "+:" := (lift2 Rplus) (at level 50, left associativity) : arr_scope.
Infix "-:" := (lift2 Rminus) (at level 50, left associativity) : arr_scope.
Infix "*:" := (lift2 Rmult) (at level 40, left associativity) : arr_scope.
Infix "/:" := (lift2 Rdiv) (at level 40, left associativity) : arr_scope.
Infix "**:" := (lift2 npow) (at level 30, right associativity) : arr_scope.
Notation "a ^: n" := (amap (fun x => x ^ n) a) (at level 30) : arr_scope.
Open Scope arr_scope.

(** [np.sign] *)
Definition np_sign (x : R) : R :=
  if Rlt_dec 0 x then 1 else if Rlt_dec x 0 then -1 else 0.

(** Python's builtin [min(a, b)] and [max(a, b)] (first argument kept on
    ties), used in [pde_rhs]; [fun] uses [np.fmin]/[np.fmax], i.e. [Rmin]
    and [Rmax] on non-NaN values. *)
Definition py_min (a b : R) : R := if Rlt_dec b a then b else a.
Definition py_max (a b : R) : R := if Rlt_dec a b then b else a.

(** ** Boundary conditions and the grid operators

    Modelled from the spec: the Grid Adapter (section 4.1), i.e. the
    backward and forward difference operators registered from py-pde's
    [_make_derivative] and the Laplacian of [ScalarField.laplace], which are
    not part of this repository.  A field over [N] cells is padded with one
    ghost cell on either side, the ghost cell of a fixed-value condition
    holds that value, the ghost cell of a derivative condition mirrors the
    adjacent cell (shifted by the prescribed derivative times [dx]). *)

Inductive BC := BCvalue (v : R) | BCderivative (d : R).

Record BCPair := { bc_top : BC; bc_bottom : BC }.

Definition ghost_left (dx : R) (bc : BC) (f : arr) : R :=
  match bc with BCvalue v => v | BCderivative d => f 0%nat - d * dx end.

Definition ghost_right (dx : R) (N : nat) (bc : BC) (f : arr) : R :=
  match bc with BCvalue v => v | BCderivative d => f (N - 1)%nat + d * dx end.

(** The padded array: index [0] is the top ghost cell, [1..N] the cells,
    [N+1] the bottom ghost cell. *)
Definition padded (dx : R) (N : nat) (bc : BCPair) (f : arr) : arr :=
  fun j => match j with
           | O => ghost_left dx (bc_top bc) f
           | S k => if Nat.ltb k N then f k else ghost_right dx N (bc_bottom bc) f
           end.

(** [out[i-1] = (arr[i] - arr[i-1]) / dx] for [i = 1..N] *)
Definition grad_back (dx : R) (N : nat) (bc : BCPair) (f : arr) : arr :=
  fun i => (padded dx N bc f (S i) - padded dx N bc f i) / dx.

(** [out[i-1] = (arr[i+1] - arr[i]) / dx] for [i = 1..N] *)
Definition grad_forw (dx : R) (N : nat) (bc : BCPair) (f : arr) : arr :=
  fun i => (padded dx N bc f (S (S i)) - padded dx N bc f (S i)) / dx.

Definition laplace (dx : R) (N : nat) (bc : BCPair) (f : arr) : arr :=
  fun i => (padded dx N bc f (S (S i)) - 2 * padded dx N bc f (S i)
            + padded dx N bc f i) / (dx * dx).

(** ** The Fiadeiro-Veronis weight: [calculate_sigma] *)

(** The body of the loop of [calculate_sigma] at one cell. *)
Definition sigma_at (Peclet W Peclet_min Peclet_max : R) : R :=
  if Rlt_dec (Rabs Peclet) Peclet_min then 0
  else if Rlt_dec Peclet_max (Rabs Peclet) then np_sign W
  else cosh Peclet / sinh Peclet - 1 / Peclet.

Definition calculate_sigma (Peclet W_data : arr) (Peclet_min Peclet_max : R) : arr :=
  fun i => sigma_at (Peclet i) (W_data i) Peclet_min Peclet_max.

(** ** The model container: [LMAHeureuxPorosityDiff] *)

(** The attributes of [self] that the right-hand side reads. *)
Record Model := {
  no_depths : nat;                 (* [self.Depths.shape[0]] *)
  delta_x : R;
  bc_CA : BCPair; bc_CC : BCPair; bc_cCa : BCPair; bc_cCO3 : BCPair; bc_Phi : BCPair;
  KRat : R; m1 : R; m2 : R; n1 : R; n2 : R; nu1 : R; nu2 : R;
  not_too_deep : arr; not_too_shallow : arr;
  presum : R; rhorat : R; lambda_ : R; Da : R; dCa : R; dCO3 : R;
  delta : R; auxcon : R;
  Peclet_min : R; Peclet_max : R }.

Definition no_fields : nat := 5.

(** The constructor arguments [__init__] turns into these attributes. *)
Record InitArgs := {
  a_no_depths : nat; a_delta_x : R;
  a_CA0 : R; a_CC0 : R; a_cCa0 : R; a_cCO30 : R; a_Phi0 : R;
  a_sedimentationrate : R; a_Tstar : R;
  a_k1 : R; a_k2 : R; a_k3 : R; a_k4 : R;
  a_m1 : R; a_m2 : R; a_n1 : R; a_n2 : R;
  a_b : R; a_beta : R; a_rhos : R; a_rhow : R; a_rhos0 : R;
  a_KA : R; a_KC : R; a_muA : R; a_D0Ca : R; a_PhiNR : R; a_PhiInfty : R;
  a_DCa : R; a_DCO3 : R;
  a_not_too_shallow : arr; a_not_too_deep : arr }.

Definition init (a : InitArgs) : Model :=
  let g := 100 * 981 / 100 in
  let rhorat0 := (a_rhos0 a / a_rhow a - 1) * a_beta a / a_sedimentationrate a in
  let rhorat := (a_rhos a / a_rhow a - 1) * a_beta a / a_sedimentationrate a in
  let Peclet_min := 1 / 100 in
  {| no_depths := a_no_depths a;
     delta_x := a_delta_x a;
     bc_CA := {| bc_top := BCvalue (a_CA0 a); bc_bottom := BCvalue (10 ^ 99) |};
     bc_CC := {| bc_top := BCvalue (a_CC0 a); bc_bottom := BCvalue (10 ^ 99) |};
     bc_cCa := {| bc_top := BCvalue (a_cCa0 a); bc_bottom := BCderivative 0 |};
     bc_cCO3 := {| bc_top := BCvalue (a_cCO30 a); bc_bottom := BCderivative 0 |};
     bc_Phi := {| bc_top := BCvalue (a_Phi0 a); bc_bottom := BCderivative 0 |};
     KRat := a_KC a / a_KA a;
     m1 := a_m1 a; m2 := a_m2 a; n1 := a_n1 a; n2 := a_n2 a;
     nu1 := a_k1 a / a_k2 a; nu2 := a_k4 a / a_k3 a;
     not_too_deep := a_not_too_deep a; not_too_shallow := a_not_too_shallow a;
     presum := 1 - rhorat0 * a_Phi0 a ^ 3 * (1 - exp (10 - 10 / a_Phi0 a))
                   / (1 - a_Phi0 a);
     rhorat := rhorat;
     lambda_ := a_k3 a / a_k2 a;
     Da := a_k2 a * a_Tstar a;
     dCa := a_DCa a / a_D0Ca a;
     dCO3 := a_DCO3 a / a_D0Ca a;
     delta := a_rhos a / (a_muA a * sqrt (a_KC a));
     auxcon := a_beta a / (a_D0Ca a * a_b a * g * a_rhow a * (a_PhiNR a - a_PhiInfty a));
     Peclet_min := Peclet_min;
     Peclet_max := 1 / Peclet_min |}.

(** ** The state vector layout

    [slices_for_all_fields = [slice(i*N, (i+1)*N) for i in range(5)]]. *)

Definition py_slice (lo hi : nat) (y : list R) : list R := firstn (hi - lo) (skipn lo y).

Definition field_slice (N f : nat) (y : list R) : list R := py_slice (f * N) (S f * N) y.

(** [ScalarField(self.Depths, data)] *)
Definition to_arr (l : list R) : arr := fun i => nth i l 0.

(** [FieldCollection([...]).data.ravel()] *)
Definition ravel (N : nat) (fs : list arr) : list R :=
  flat_map (fun a => map a (seq 0 N)) fs.

(** ** The progress counter shared by [fun], [fun_numba] and [jac] *)

(** Python's [int(x)] on a float: truncation towards zero. *)
Definition py_int (x : R) : Z :=
  if Rle_dec 0 x then Int_part x else (- Int_part (- x))%Z.

Record Progress := { last_t : R; pbar_n : Z }.

(** [if self.last_t == 0.: self.last_t = t0];
    [n = int((t - self.last_t) / progress_dt)]; [progress_proxy.update(n)];
    [self.last_t += n * progress_dt]. *)
Definition progress_update (st : Progress) (t progress_dt t0 : R) : Progress :=
  let lt0 := if Req_dec_T (last_t st) 0 then t0 else last_t st in
  let n := py_int ((t - lt0) / progress_dt) in
  {| last_t := lt0 + IZR n * progress_dt; pbar_n := (pbar_n st + n)%Z |}.

(** ** [fun]: the array-expression right-hand side *)

(** [- a] on an array *)
Definition aneg (a : arr) : arr := amap Ropp a.

(** The local arrays of [fun] that the claims look at. *)
Record FunLocals := {
  fl_CA : arr; fl_CC : arr; fl_cCa : arr; fl_cCO3 : arr; fl_Phi : arr;
  fl_coA : arr; fl_coC : arr; fl_F : arr; fl_U : arr; fl_W : arr;
  fl_CA_grad : arr; fl_CC_grad : arr;
  fl_sigma_cCa : arr; fl_sigma_cCO3 : arr; fl_sigma_Phi : arr;
  fl_cCa_grad : arr; fl_cCO3_grad : arr; fl_Phi_grad : arr;
  fl_dCA_dt : arr; fl_dCC_dt : arr; fl_dcCa_dt : arr; fl_dcCO3_dt : arr;
  fl_dPhi_dt : arr }.

Definition fun_locals (m : Model) (y : list R) : FunLocals :=
  let N := no_depths m in
  let dx := delta_x m in
  let CA := to_arr (field_slice N 0 y) in
  let CC := to_arr (field_slice N 1 y) in
  let cCa := to_arr (field_slice N 2 y) in
  let cCO3 := to_arr (field_slice N 3 y) in
  let Phi := to_arr (field_slice N 4 y) in
  let two_factors := cCa *: cCO3 in
  let two_factors_upp_lim := amap (fun f => Rmin f 1) two_factors in
  let two_factors_low_lim := amap (fun f => Rmax f 1) two_factors in
  let three_factors := two_factors *: cst (KRat m) in
  let three_factors_upp_lim := amap (fun f => Rmin f 1) three_factors in
  let three_factors_low_lim := amap (fun f => Rmax f 1) three_factors in
  let coA := CA *: (((cst 1 -: three_factors_upp_lim) **: cst (m2 m)) *:
                    (not_too_deep m *: not_too_shallow m) -: cst (nu1 m) *:
                    (three_factors_low_lim -: cst 1) **: cst (m1 m)) in
  let coC := CC *: (((two_factors_low_lim -: cst 1) **: cst (n1 m)) -: cst (nu2 m) *:
                    (cst 1 -: two_factors_upp_lim) **: cst (n2 m)) in
  let F := cst 1 -: amap exp (cst 10 -: cst 10 /: Phi) in
  let U := cst (presum m) +: cst (rhorat m) *: Phi ^: 3 *: F /: (cst 1 -: Phi) in
  let CA_grad_back := grad_back dx N (bc_CA m) CA in
  let CA_grad := CA_grad_back in
  let CC_grad_back := grad_back dx N (bc_CC m) CC in
  let CC_grad := CC_grad_back in
  let W := cst (presum m) -: cst (rhorat m) *: Phi ^: 2 *: F in
  let dCA_dt := aneg U *: CA_grad -: cst (Da m) *: ((cst 1 -: CA)
                 *: coA +: cst (lambda_ m) *: CA *: coC) in
  let dCC_dt := aneg U *: CC_grad +: cst (Da m) *: (cst (lambda_ m)
                 *: (cst 1 -: CC) *: coC +: CC *: coA) in
  let denominator := cst 1 -: cst 2 *: amap ln Phi in
  let common_Peclet := W *: cst dx /: cst 2 in
  let Peclet_cCa := common_Peclet *: denominator /: cst (dCa m) in
  let sigma_cCa := calculate_sigma Peclet_cCa W (Peclet_min m) (Peclet_max m) in
  let Peclet_cCO3 := common_Peclet *: denominator /: cst (dCO3 m) in
  let sigma_cCO3 := calculate_sigma Peclet_cCO3 W (Peclet_min m) (Peclet_max m) in
  let dPhi := cst (auxcon m) *: F *: (Phi ^: 3) /: (cst 1 -: Phi) in
  let Peclet_Phi := common_Peclet /: dPhi in
  let sigma_Phi := calculate_sigma Peclet_Phi W (Peclet_min m) (Peclet_max m) in
  let cCa_grad_back := grad_back dx N (bc_cCa m) cCa in
  let cCa_grad_forw := grad_forw dx N (bc_cCa m) cCa in
  let cCa_grad := cst 0.5 *: ((cst 1 -: sigma_cCa) *: cCa_grad_forw +:
                  (cst 1 +: sigma_cCa) *: cCa_grad_back) in
  let cCa_laplace := laplace dx N (bc_cCa m) cCa in
  let cCO3_grad_back := grad_back dx N (bc_cCO3 m) cCO3 in
  let cCO3_grad_forw := grad_forw dx N (bc_cCO3 m) cCO3 in
  let cCO3_grad := cst 0.5 *: ((cst 1 -: sigma_cCO3) *: cCO3_grad_forw +:
                   (cst 1 +: sigma_cCO3) *: cCO3_grad_back) in
  let cCO3_laplace := laplace dx N (bc_cCO3 m) cCO3 in
  let Phi_grad_back := grad_back dx N (bc_Phi m) Phi in
  let Phi_grad_forw := grad_forw dx N (bc_Phi m) Phi in
  let Phi_grad := cst 0.5 *: ((cst 1 -: sigma_Phi) *: Phi_grad_forw +:
                  (cst 1 +: sigma_Phi) *: Phi_grad_back) in
  let Phi_laplace := laplace dx N (bc_Phi m) Phi in
  let Phi_denom := Phi /: denominator in
  let grad_Phi_denom := Phi_grad *: (denominator +: cst 2) /: denominator ^: 2 in
  let common_helper := coA -: cst (lambda_ m) *: coC in
  let dcCa_dt := (cCa_grad *: grad_Phi_denom +: Phi_denom *: cCa_laplace)
                 *: cst (dCa m) /: Phi -: W *: cCa_grad
                 +: cst (Da m) *: (cst 1 -: Phi) *: (cst (delta m) -: cCa) *: common_helper /: Phi in
  let dcCO3_dt := (cCO3_grad *: grad_Phi_denom +: Phi_denom *: cCO3_laplace)
                  *: cst (dCO3 m) /: Phi -: W *: cCO3_grad
                  +: cst (Da m) *: (cst 1 -: Phi) *: (cst (delta m) -: cCO3) *: common_helper /: Phi in
  let dW_dx := cst (- rhorat m) *: Phi_grad *: (cst 2 *: Phi *: F +: cst 10 *: (F -: cst 1)) in
  let dPhi_dt := aneg (Phi *: dW_dx +: W *: Phi_grad)
                 +: dPhi *: Phi_laplace
                 +: cst (Da m) *: (cst 1 -: Phi) *: common_helper in
  {| fl_CA := CA; fl_CC := CC; fl_cCa := cCa; fl_cCO3 := cCO3; fl_Phi := Phi;
     fl_coA := coA; fl_coC := coC; fl_F := F; fl_U := U; fl_W := W;
     fl_CA_grad := CA_grad; fl_CC_grad := CC_grad;
     fl_sigma_cCa := sigma_cCa; fl_sigma_cCO3 := sigma_cCO3; fl_sigma_Phi := sigma_Phi;
     fl_cCa_grad := cCa_grad; fl_cCO3_grad := cCO3_grad; fl_Phi_grad := Phi_grad;
     fl_dCA_dt := dCA_dt; fl_dCC_dt := dCC_dt; fl_dcCa_dt := dcCa_dt;
     fl_dcCO3_dt := dcCO3_dt; fl_dPhi_dt := dPhi_dt |}.

(** The derivative vector returned by [fun]. *)
Definition fun_rhs (m : Model) (y : list R) : list R :=
  let L := fun_locals m y in
  ravel (no_depths m) [fl_dCA_dt L; fl_dCC_dt L; fl_dcCa_dt L; fl_dcCO3_dt L; fl_dPhi_dt L].

(** [fun(t, y, progress_proxy, progress_dt, t0)] with the state of
    [self.last_t] and of the progress bar threaded through. *)
Definition fun_ (m : Model) (st : Progress) (t : R) (y : list R) (progress_dt t0 : R)
  : Progress * list R :=
  let st' := progress_update st t progress_dt t0 in
  (st', fun_rhs m y).

(** ** [pde_rhs]: the fused per-cell right-hand side of [fun_numba] *)

(** Row [i] of the work arrays of [pde_rhs] ([F[i]], [U[i]], ...) together
    with the three weights and the five rates the iteration [i] computes.
    Every work array is written at [i] and read only at [i] in the same
    iteration, so one iteration is a function of the cell index. *)
Record Cell := {
  c_F : R; c_U : R; c_W : R; c_denominator : R;
  c_sigma_cCa : R; c_sigma_cCO3 : R; c_sigma_Phi : R;
  c_cCa_grad : R; c_cCO3_grad : R; c_Phi_grad : R;
  c_coA : R; c_coC : R;
  c_rate_CA : R; c_rate_CC : R; c_rate_cCa : R; c_rate_cCO3 : R; c_rate_Phi : R }.

Definition pde_rhs_cell (m : Model) (CA CC cCa cCO3 Phi : arr)
    (CA_grad_back CC_grad_back cCa_grad_back cCa_grad_forw cCa_laplace
     cCO3_grad_back cCO3_grad_forw cCO3_laplace
     Phi_grad_back Phi_grad_forw Phi_laplace : arr) (delta_x : R) (i : nat) : Cell :=
  let F := 1 - exp (10 - 10 / Phi i) in
  let U := presum m + rhorat m * Phi i ^ 3 * F / (1 - Phi i) in
  let CA_grad := CA_grad_back i in
  let CC_grad := CC_grad_back i in
  let W := presum m - rhorat m * Phi i ^ 2 * F in
  let denominator := 1 - 2 * ln (Phi i) in
  let Peclet_cCa := W * delta_x * denominator / (2 * dCa m) in
  let sigma_cCa :=
    if Rlt_dec (Rabs Peclet_cCa) (Peclet_min m) then 0
    else if Rlt_dec (Peclet_max m) (Rabs Peclet_cCa) then np_sign W
    else cosh Peclet_cCa / sinh Peclet_cCa - 1 / Peclet_cCa in
  let Peclet_cCO3 := W * delta_x * denominator / (2 * dCO3 m) in
  let sigma_cCO3 :=
    if Rlt_dec (Rabs Peclet_cCO3) (Peclet_min m) then 0
    else if Rlt_dec (Peclet_max m) (Rabs Peclet_cCO3) then np_sign W
    else cosh Peclet_cCO3 / sinh Peclet_cCO3 - 1 / Peclet_cCO3 in
  let one_minus_Phi := 1 - Phi i in
  let dPhi := auxcon m * F * (Phi i ^ 3) / one_minus_Phi in
  let Peclet_Phi := W * delta_x / (2 * dPhi) in
  let sigma_Phi :=
    if Rlt_dec (Rabs Peclet_Phi) (Peclet_min m) then 0
    else if Rlt_dec (Peclet_max m) (Rabs Peclet_Phi) then np_sign W
    else cosh Peclet_Phi / sinh Peclet_Phi - 1 / Peclet_Phi in
  let cCa_grad := 0.5 * ((1 - sigma_cCa) * cCa_grad_forw i +
                         (1 + sigma_cCa) * cCa_grad_back i) in
  let cCO3_grad := 0.5 * ((1 - sigma_cCO3) * cCO3_grad_forw i +
                          (1 + sigma_cCO3) * cCO3_grad_back i) in
  let Phi_grad := 0.5 * ((1 - sigma_Phi) * Phi_grad_forw i +
                         (1 + sigma_Phi) * Phi_grad_back i) in
  let common_helper1 := Phi i / denominator in
  let common_helper2 := Phi_grad * (2 + denominator) / denominator ^ 2 in
  let helper_cCa_grad := dCa m * (common_helper2 * cCa_grad
                                  + common_helper1 * cCa_laplace i) in
  let helper_cCO3_grad := dCO3 m * (common_helper2 * cCO3_grad
                                    + common_helper1 * cCO3_laplace i) in
  let two_factors := cCa i * cCO3 i in
  let two_factors_upp_lim := py_min two_factors 1 in
  let two_factors_low_lim := py_max two_factors 1 in
  let three_factors := two_factors * KRat m in
  let three_factors_upp_lim := py_min three_factors 1 in
  let three_factors_low_lim := py_max three_factors 1 in
  let coA := CA i * ((npow (1 - three_factors_upp_lim) (m2 m)) *
               (not_too_deep m i * not_too_shallow m i) - nu1 m *
               npow (three_factors_low_lim - 1) (m1 m)) in
  let coC := CC i * ((npow (two_factors_low_lim - 1) (n1 m)) - nu2 m *
               npow (1 - two_factors_upp_lim) (n2 m)) in
  let common_helper3 := coA - lambda_ m * coC in
  let dW_dx := - rhorat m * Phi_grad * (2 * Phi i * F + 10 * (F - 1)) in
  {| c_F := F; c_U := U; c_W := W; c_denominator := denominator;
     c_sigma_cCa := sigma_cCa; c_sigma_cCO3 := sigma_cCO3; c_sigma_Phi := sigma_Phi;
     c_cCa_grad := cCa_grad; c_cCO3_grad := cCO3_grad; c_Phi_grad := Phi_grad;
     c_coA := coA; c_coC := coC;
     c_rate_CA := - U * CA_grad - Da m * ((1 - CA i) * coA + lambda_ m * CA i * coC);
     c_rate_CC := - U * CC_grad + Da m * (lambda_ m * (1 - CC i) * coC + CC i * coA);
     c_rate_cCa := helper_cCa_grad / Phi i - W * cCa_grad + Da m * one_minus_Phi *
                   (delta m - cCa i) * common_helper3 / Phi i;
     c_rate_cCO3 := helper_cCO3_grad / Phi i - W * cCO3_grad + Da m * one_minus_Phi *
                    (delta m - cCO3 i) * common_helper3 / Phi i;
     c_rate_Phi := - (dW_dx * Phi i + W * Phi_grad) + dPhi * Phi_laplace i
                   + Da m * one_minus_Phi * common_helper3 |}.

(** [a[k] = v] on a list; numba does not check bounds, every index written
    by [pde_rhs] is in range. *)
Fixpoint set_nth (k : nat) (v : R) (l : list R) : list R :=
  match l, k with
  | [], _ => []
  | _ :: t, O => v :: t
  | x :: t, S k' => x :: set_nth k' v t
  end.

(** One iteration of the loop of [pde_rhs]: the five writes
    [rate[f * no_depths + i] = ...] of cell [i]. *)
Definition pde_rhs_step (no_depths : nat) (cell : nat -> Cell) (rate : list R) (i : nat)
  : list R :=
  let c := cell i in
  let rate := set_nth i (c_rate_CA c) rate in
  let rate := set_nth (no_depths + i) (c_rate_CC c) rate in
  let rate := set_nth (2 * no_depths + i) (c_rate_cCa c) rate in
  let rate := set_nth (3 * no_depths + i) (c_rate_cCO3 c) rate in
  set_nth (4 * no_depths + i) (c_rate_Phi c) rate.

Definition pde_rhs (m : Model) (CA CC cCa cCO3 Phi : arr)
    (CA_grad_back CC_grad_back cCa_grad_back cCa_grad_forw cCa_laplace
     cCO3_grad_back cCO3_grad_forw cCO3_laplace
     Phi_grad_back Phi_grad_forw Phi_laplace : arr) (delta_x : R) (no_depths : nat)
  : list R :=
  (* [rate = np.empty(5 * no_depths)]: every entry is overwritten below. *)
  let rate0 := repeat 0 (5 * no_depths) in
  fold_left
    (pde_rhs_step no_depths
       (pde_rhs_cell m CA CC cCa cCO3 Phi CA_grad_back CC_grad_back
          cCa_grad_back cCa_grad_forw cCa_laplace cCO3_grad_back
          cCO3_grad_forw cCO3_laplace Phi_grad_back Phi_grad_forw
          Phi_laplace delta_x))
    (seq 0 no_depths) rate0.

(** The derivative vector returned by [fun_numba]. *)
Definition fun_numba_rhs (m : Model) (y : list R) : list R :=
  let N := no_depths m in
  let dx := delta_x m in
  let CA := to_arr (field_slice N 0 y) in
  let CC := to_arr (field_slice N 1 y) in
  let cCa := to_arr (field_slice N 2 y) in
  let cCO3 := to_arr (field_slice N 3 y) in
  let Phi := to_arr (field_slice N 4 y) in
  let CA_grad_back := grad_back dx N (bc_CA m) CA in
  let CC_grad_back := grad_back dx N (bc_CC m) CC in
  let cCa_grad_back := grad_back dx N (bc_cCa m) cCa in
  let cCa_grad_forw := grad_forw dx N (bc_cCa m) cCa in
  let cCa_laplace := laplace dx N (bc_cCa m) cCa in
  let cCO3_grad_back := grad_back dx N (bc_cCO3 m) cCO3 in
  let cCO3_grad_forw := grad_forw dx N (bc_cCO3 m) cCO3 in
  let cCO3_laplace := laplace dx N (bc_cCO3 m) cCO3 in
  let Phi_grad_back := grad_back dx N (bc_Phi m) Phi in
  let Phi_grad_forw := grad_forw dx N (bc_Phi m) Phi in
  let Phi_laplace := laplace dx N (bc_Phi m) Phi in
  pde_rhs m CA CC cCa cCO3 Phi CA_grad_back CC_grad_back
    cCa_grad_back cCa_grad_forw cCa_laplace cCO3_grad_back cCO3_grad_forw
    cCO3_laplace Phi_grad_back Phi_grad_forw Phi_laplace dx N.

Definition fun_numba (m : Model) (st : Progress) (t : R) (y : list R) (progress_dt t0 : R)
  : Progress * list R :=
  let st' := progress_update st t progress_dt t0 in
  (st', fun_numba_rhs m y).

(** [jac] updates the progress counter the same way; the Jacobian values it
    returns come from [Compute_jacobian], which is not part of the sources
    and plays no part in the progress counter. *)
Definition jac_progress (st : Progress) (t progress_dt t0 : R) : Progress :=
  progress_update st t progress_dt t0.

(** ** [jacobian_sparsity]

    The sparse matrix is the sum of the coordinate-format matrices
    [csr_matrix((data, (i*N + row, j*N + col)))] with [data] all ones and
    [row = col = arange(N)]; it is kept as its list of coordinates, and the
    value of the summed matrix at [(r, c)] is the number of times [(r, c)]
    occurs in that list. *)

Definition block_coo (N i j : nat) : list (nat * nat) :=
  map (fun k => (i * N + k, j * N + k)%nat) (seq 0 N).

Definition jacobian_sparsity (N : nat) : list (nat * nat) :=
  flat_map (fun i =>
    flat_map (fun j =>
      if (Nat.ltb i (no_fields - 1) || Nat.ltb 1 j)%bool then block_coo N i j else [])
      (seq 0 no_fields))
    (seq 0 no_fields).

Definition pair_eq_dec : forall p q : nat * nat, {p = q} + {p <> q}.
Proof. decide equality; apply Nat.eq_dec. Defined.

Definition csr_entry (coo : list (nat * nat)) (r c : nat) : nat :=
  count_occ pair_eq_dec coo (r, c).

(** ** The event predicates *)

(** [np.amin] and [np.amax]; both raise on an empty array. *)
Definition amin (l : list R) : option R :=
  match l with [] => None | x :: t => Some (fold_left Rmin t x) end.

Definition amax (l : list R) : option R :=
  match l with [] => None | x :: t => Some (fold_left Rmax t x) end.

(** Element-wise [a op b] on two numpy arrays of the same length. *)
Definition vzip (op : R -> R -> R) (a b : list R) : list R :=
  map (fun p => op (fst p) (snd p)) (combine a b).

Definition vmap (f : R -> R) (a : list R) : list R := map f a.

Definition zeros (m : Model) (y : list R) : option R := amin y.

Definition zeros_CA (m : Model) (y : list R) : option R :=
  amin (field_slice (no_depths m) 0 y).

Definition zeros_CC (m : Model) (y : list R) : option R :=
  amin (field_slice (no_depths m) 1 y).

Definition ones_CA_plus_CC (m : Model) (y : list R) : option R :=
  let CA := field_slice (no_depths m) 0 y in
  let CC := field_slice (no_depths m) 1 y in
  option_map (fun v => v - 1) (amax (vzip Rplus CA CC)).

Definition ones_Phi (m : Model) (y : list R) : option R :=
  let Phi := field_slice (no_depths m) 4 y in
  option_map (fun v => v - 1) (amax Phi).

Definition zeros_U (m : Model) (y : list R) : option R :=
  let Phi := field_slice (no_depths m) 4 y in
  let F := vmap (fun x => 1 - x) (vmap exp (vmap (fun p => 10 - 10 / p) Phi)) in
  let U := vmap (fun x => presum m + x)
             (vzip Rdiv (vzip Rmult (vmap (fun p => rhorat m * p ^ 3) Phi) F)
                   (vmap (fun p => 1 - p) Phi)) in
  amin U.

Definition zeros_W (m : Model) (y : list R) : option R :=
  let Phi := field_slice (no_depths m) 4 y in
  let F := vmap (fun x => 1 - x) (vmap exp (vmap (fun p => 10 - 10 / p) Phi)) in
  let W := vmap (fun x => presum m - x) (vzip Rmult (vmap (fun p => rhorat m * p ^ 2) Phi) F) in
  amax W.

(** ** The driver script [ScenarioA.py]

    [solve_ivp(fun=eq.fun_numba, ..., args=[pbar, (end_time - t0) /
    number_of_progress_updates, t0])] with [t0 = 0]: the solver calls
    [eq.fun_numba(t, y, pbar, progress_dt, t0)] at a sequence of times and
    states; [eq.last_t] and [pbar.n] are what these calls leave behind. *)
Definition run_fun_numba (m : Model) (st : Progress) (calls : list (R * list R))
    (progress_dt t0 : R) : Progress :=
  fold_left (fun s c => fst (fun_numba m s (fst c) (snd c) progress_dt t0)) calls st.

(** [covered_time = Tstar * end_time if sol.status == 0 else
    pbar.n * Tstar * end_time / number_of_progress_updates] *)
Definition covered_time (status : Z) (Tstar end_time : R) (pbar_n : Z)
    (number_of_progress_updates : R) : R :=
  if Z.eqb status 0 then Tstar * end_time
  else IZR pbar_n * Tstar * end_time / number_of_progress_updates.

(** ** Specification-side definitions and a concrete model *)

(** The weight as the specification states it, with the thresholds
    [Peclet_min = 1e-2] and [Peclet_max = 1e2] written in. *)
Definition fv_weight_spec (Pe W : R) : R :=
  if Rlt_dec (Rabs Pe) (1 / 100) then 0
  else if Rlt_dec 100 (Rabs Pe) then np_sign W
  else cosh Pe / sinh Pe - 1 / Pe.

(** [FieldCollection([CA, CC, cCa, cCO3, Phi]).data.ravel()] on the field
    arrays. *)
Definition flatten5 (CA CC cCa cCO3 Phi : list R) : list R :=
  CA ++ CC ++ cCa ++ cCO3 ++ Phi.

(** [y[self.slices_for_all_fields[f]]] for [f = 0..4]. *)
Definition unpack5 (N : nat) (y : list R) : list R * list R * list R * list R * list R :=
  (field_slice N 0 y, field_slice N 1 y, field_slice N 2 y, field_slice N 3 y,
   field_slice N 4 y).

(** A concrete model: two cells, the boundary conditions of [__init__]. *)
Definition example_model : Model :=
  {| no_depths := 2; delta_x := 1 / 2;
     bc_CA := {| bc_top := BCvalue (6 / 10); bc_bottom := BCvalue (10 ^ 99) |};
     bc_CC := {| bc_top := BCvalue (3 / 10); bc_bottom := BCvalue (10 ^ 99) |};
     bc_cCa := {| bc_top := BCvalue 1; bc_bottom := BCderivative 0 |};
     bc_cCO3 := {| bc_top := BCvalue 1; bc_bottom := BCderivative 0 |};
     bc_Phi := {| bc_top := BCvalue (8 / 10); bc_bottom := BCderivative 0 |};
     KRat := 2; m1 := 248 / 100; m2 := 248 / 100; n1 := 28 / 10; n2 := 28 / 10;
     nu1 := 1; nu2 := 1; not_too_deep := cst 1; not_too_shallow := cst 1;
     presum := 1; rhorat := 1 / 10; lambda_ := 1 / 10; Da := 1;
     dCa := 1; dCO3 := 2; delta := 1; auxcon := 1;
     Peclet_min := 1 / 100; Peclet_max := 100 |}.

(** Constructor arguments for a one-cell model. *)
Definition example_args : InitArgs :=
  {| a_no_depths := 1; a_delta_x := 1;
     a_CA0 := 6 / 10; a_CC0 := 3 / 10; a_cCa0 := 1; a_cCO30 := 1; a_Phi0 := 1 / 2;
     a_sedimentationrate := 1 / 10; a_Tstar := 1;
     a_k1 := 1; a_k2 := 1; a_k3 := 1 / 10; a_k4 := 1;
     a_m1 := 248 / 100; a_m2 := 248 / 100; a_n1 := 28 / 10; a_n2 := 28 / 10;
     a_b := 5; a_beta := 1 / 10; a_rhos := 2; a_rhow := 1; a_rhos0 := 2;
     a_KA := 1; a_KC := 2; a_muA := 1; a_D0Ca := 1; a_PhiNR := 1 / 2; a_PhiInfty := 1 / 100;
     a_DCa := 1; a_DCO3 := 2;
     a_not_too_shallow := cst 1; a_not_too_deep := cst 1 |}.

(** Settles the index comparisons [a =? b] of a goal by [lia]. *)
Ltac decide_eqb :=
  repeat match goal with
         | |- context [Nat.eqb ?a ?b] =>
             first [ rewrite (proj2 (Nat.eqb_neq a b)) by lia
                   | rewrite (proj2 (Nat.eqb_eq a b)) by lia ]
         end.

(** The rate a cell writes into field [f]'s block. *)
Definition rate_of (c : Cell) (f : nat) : R :=
  match f with
  | O => c_rate_CA c | 1 => c_rate_CC c | 2 => c_rate_cCa c | 3 => c_rate_cCO3 c
  | _ => c_rate_Phi c
  end.

(** [dCA/dt] and [dCC/dt] at one cell as the specification writes them,
    from the cell values and the backward gradients of CA and CC. *)
Definition spec_dCA_dCC (m : Model) (CA CC cCa cCO3 Phi gCA gCC ntd nts : R) : R * R :=
  let F := 1 - exp (10 - 10 / Phi) in
  let U := presum m + rhorat m * Phi ^ 3 * F / (1 - Phi) in
  let coA := CA * (npow (1 - Rmin (KRat m * cCa * cCO3) 1) (m2 m) * ntd * nts
                   - nu1 m * npow (Rmax (KRat m * cCa * cCO3) 1 - 1) (m1 m)) in
  let coC := CC * (npow (Rmax (cCa * cCO3) 1 - 1) (n1 m)
                   - nu2 m * npow (1 - Rmin (cCa * cCO3) 1) (n2 m)) in
  (- U * gCA - Da m * ((1 - CA) * coA + lambda_ m * CA * coC),
   - U * gCC + Da m * (lambda_ m * (1 - CC) * coC + CC * coA)).

(** The pair [bc] with its bottom condition replaced by [b]. *)
Definition with_bottom (bc : BCPair) (b : BC) : BCPair :=
  {| bc_top := bc_top bc; bc_bottom := b |}.

(** The model with the boundary conditions of CA, or of CC, replaced. *)
Definition with_bc_CA (m : Model) (bc : BCPair) : Model :=
  {| no_depths := no_depths m; delta_x := delta_x m;
     bc_CA := bc; bc_CC := bc_CC m; bc_cCa := bc_cCa m; bc_cCO3 := bc_cCO3 m;
     bc_Phi := bc_Phi m;
     KRat := KRat m; m1 := m1 m; m2 := m2 m; n1 := n1 m; n2 := n2 m;
     nu1 := nu1 m; nu2 := nu2 m;
     not_too_deep := not_too_deep m; not_too_shallow := not_too_shallow m;
     presum := presum m; rhorat := rhorat m; lambda_ := lambda_ m; Da := Da m;
     dCa := dCa m; dCO3 := dCO3 m; delta := delta m; auxcon := auxcon m;
     Peclet_min := Peclet_min m; Peclet_max := Peclet_max m |}.

Definition with_bc_CC (m : Model) (bc : BCPair) : Model :=
  {| no_depths := no_depths m; delta_x := delta_x m;
     bc_CA := bc_CA m; bc_CC := bc; bc_cCa := bc_cCa m; bc_cCO3 := bc_cCO3 m;
     bc_Phi := bc_Phi m;
     KRat := KRat m; m1 := m1 m; m2 := m2 m; n1 := n1 m; n2 := n2 m;
     nu1 := nu1 m; nu2 := nu2 m;
     not_too_deep := not_too_deep m; not_too_shallow := not_too_shallow m;
     presum := presum m; rhorat := rhorat m; lambda_ := lambda_ m; Da := Da m;
     dCa := dCa m; dCO3 := dCO3 m; delta := delta m; auxcon := auxcon m;
     Peclet_min := Peclet_min m; Peclet_max := Peclet_max m |}.

(** [v] is the least, or the greatest, element of [l]. *)
Definition is_min (v : R) (l : list R) : Prop := In v l /\ forall x, In x l -> v <= x.
Definition is_max (v : R) (l : list R) : Prop := In v l /\ forall x, In x l -> x <= v.

(** A state of the two-cell model with one negative CA entry. *)
Definition example_state : list R := [-1/2; 1/4; 1/3; 1/5; 1; 2; 1; 1; 1/2; 3/5].

(** * Properties *)

(** ** The closed-form weight [coth(Pe) - 1/Pe] lies in [[-1, 1]] *)

Lemma coth_minus_inv_pos (x : R) : 0 < x ->
  -1 <= cosh x / sinh x - 1 / x <= 1.
Proof.
  intros Hx. unfold cosh, sinh.
  set (e := exp x). set (f := exp (- x)).
  assert (Hef : e * f = 1).
  { unfold e, f. rewrite <- exp_plus. replace (x + - x) with 0 by ring. apply exp_0. }
  assert (He : 0 < e) by apply exp_pos.
  assert (Hf : 0 < f) by apply exp_pos.
  assert (Hee : 1 + 2 * x <= e * e).
  { unfold e. rewrite <- exp_plus. replace (x + x) with (2 * x) by ring.
    apply exp_ineq1_le. }
  assert (Hff : 1 + - (2 * x) <= f * f).
  { unfold f. rewrite <- exp_plus. replace (- x + - x) with (- (2 * x)) by ring.
    apply exp_ineq1_le. }
  assert (Hgt : f < e) by (unfold e, f; apply exp_increasing; lra).
  assert (Hlo : f >= e * (1 + - (2 * x))).
  { assert (e * (1 + - (2 * x)) <= e * (f * f)) by (apply Rmult_le_compat_l; lra).
    replace (e * (f * f)) with ((e * f) * f) in H by ring. rewrite Hef in H. lra. }
  assert (Hhi : e >= f * (1 + 2 * x)).
  { assert (f * (1 + 2 * x) <= f * (e * e)) by (apply Rmult_le_compat_l; lra).
    replace (f * (e * e)) with ((e * f) * e) in H by ring. rewrite Hef in H. lra. }
  replace ((e + f) / 2 / ((e - f) / 2) - 1 / x)
    with (((e + f) * x - (e - f)) / ((e - f) * x)) by (field; lra).
  assert (Hsx : 0 < (e - f) * x) by nra.
  split; apply (Rmult_le_reg_r ((e - f) * x)); try exact Hsx;
    replace (((e + f) * x - (e - f)) / ((e - f) * x) * ((e - f) * x))
      with ((e + f) * x - (e - f)) by (field; lra); nra.
Qed.

Lemma coth_minus_inv_odd (x : R) :
  cosh (- x) / sinh (- x) - 1 / (- x) = - (cosh x / sinh x - 1 / x).
Proof.
  unfold cosh, sinh. rewrite Ropp_involutive.
  destruct (Req_dec_T x 0) as [->|Hx].
  - rewrite Ropp_0. unfold Rdiv. rewrite !Rminus_diag, !Rmult_0_l, !Rinv_0. ring.
  - assert (exp x <> exp (- x)).
    { intro E. apply exp_inv in E. lra. }
    field. repeat split; intro E; first [apply H; lra | lra].
Qed.

Lemma coth_minus_inv_bound (x : R) : x <> 0 ->
  -1 <= cosh x / sinh x - 1 / x <= 1.
Proof.
  intros Hx. destruct (Rlt_or_le 0 x) as [Hp|Hn].
  - now apply coth_minus_inv_pos.
  - assert (0 < - x) by lra.
    pose proof (coth_minus_inv_pos (- x) H) as B.
    rewrite coth_minus_inv_odd in B. lra.
Qed.

Lemma np_sign_bound (w : R) : -1 <= np_sign w <= 1.
Proof. unfold np_sign; repeat destruct Rlt_dec; lra. Qed.

(** C7. Upwind weight boundedness: for every non-zero Peclet value and
    every velocity, the weight [calculate_sigma] computes lies in [[-1, 1]];
    and whenever [|Pe| < Peclet_min] (in particular for [Pe] tending to [0])
    the first branch is taken and the weight is [0]. *)
Theorem calculate_sigma_bounded (Peclet W_data : arr) (Peclet_min Peclet_max : R)
    (i : nat) (HPe : Peclet i <> 0) :
  -1 <= calculate_sigma Peclet W_data Peclet_min Peclet_max i <= 1 /\
  (Rabs (Peclet i) < Peclet_min ->
   calculate_sigma Peclet W_data Peclet_min Peclet_max i = 0).
Proof.
  unfold calculate_sigma, sigma_at. split.
  - destruct Rlt_dec; [lra|]. destruct Rlt_dec.
    + apply np_sign_bound.
    + now apply coth_minus_inv_bound.
  - intros H. destruct Rlt_dec; [reflexivity | contradiction].
Qed.

Lemma calculate_sigma_bounded_witness :
  (fun _ => 1 / 1000 : R) 0%nat <> 0 /\
  -1 <= calculate_sigma (fun _ => 1 / 1000) (cst (-1)) (1 / 100) 100 0%nat <= 1 /\
  (Rabs (1 / 1000) < 1 / 100 ->
   calculate_sigma (fun _ => 1 / 1000) (cst (-1)) (1 / 100) 100 0%nat = 0).
Proof.
  assert (H : (fun _ => 1 / 1000 : R) 0%nat <> 0) by (simpl; lra).
  split; [exact H|]. apply (calculate_sigma_bounded _ _ _ _ 0 H).
Defined.

(** ** The three-branch weight and the blended gradient *)

Lemma init_Peclet_thresholds (a : InitArgs) :
  Peclet_min (init a) = 1 / 100 /\ Peclet_max (init a) = 100.
Proof. simpl. split; [reflexivity | field]. Qed.

Lemma sigma_at_init (a : InitArgs) (Pe W : R) :
  sigma_at Pe W (Peclet_min (init a)) (Peclet_max (init a)) = fv_weight_spec Pe W.
Proof.
  destruct (init_Peclet_thresholds a) as [-> ->]. reflexivity.
Qed.

(** C2. In both right-hand sides, each of the three weights is [0] when
    [|Pe| < 1e-2], [sign(W)] when [|Pe| > 1e2] and [coth(Pe) - 1/Pe]
    otherwise, [Pe] being the cell's Peclet number, and each blended
    gradient is [0.5*((1-sigma)*grad_forw + (1+sigma)*grad_back)]. *)
Theorem upwind_weight_and_blend (a : InitArgs) :
  let m := init a in
  (forall (Peclet W_data : arr) (i : nat),
     calculate_sigma Peclet W_data (Peclet_min m) (Peclet_max m) i
     = fv_weight_spec (Peclet i) (W_data i)) /\
  (forall (y : list R) (i : nat),
     let L := fun_locals m y in
     let N := no_depths m in
     let dx := delta_x m in
     let den := 1 - 2 * ln (fl_Phi L i) in
     let dPhi := auxcon m * fl_F L i * fl_Phi L i ^ 3 / (1 - fl_Phi L i) in
     fl_sigma_cCa L i = fv_weight_spec (fl_W L i * dx / 2 * den / dCa m) (fl_W L i) /\
     fl_sigma_cCO3 L i = fv_weight_spec (fl_W L i * dx / 2 * den / dCO3 m) (fl_W L i) /\
     fl_sigma_Phi L i = fv_weight_spec (fl_W L i * dx / 2 / dPhi) (fl_W L i) /\
     fl_cCa_grad L i = 0.5 * ((1 - fl_sigma_cCa L i) * grad_forw dx N (bc_cCa m) (fl_cCa L) i
                              + (1 + fl_sigma_cCa L i) * grad_back dx N (bc_cCa m) (fl_cCa L) i) /\
     fl_cCO3_grad L i = 0.5 * ((1 - fl_sigma_cCO3 L i) * grad_forw dx N (bc_cCO3 m) (fl_cCO3 L) i
                              + (1 + fl_sigma_cCO3 L i) * grad_back dx N (bc_cCO3 m) (fl_cCO3 L) i) /\
     fl_Phi_grad L i = 0.5 * ((1 - fl_sigma_Phi L i) * grad_forw dx N (bc_Phi m) (fl_Phi L) i
                              + (1 + fl_sigma_Phi L i) * grad_back dx N (bc_Phi m) (fl_Phi L) i)) /\
  (forall (CA CC cCa cCO3 Phi CA_gb CC_gb cCa_gb cCa_gf cCa_lap cCO3_gb cCO3_gf cCO3_lap
           Phi_gb Phi_gf Phi_lap : arr) (dx : R) (i : nat),
     let c := pde_rhs_cell m CA CC cCa cCO3 Phi CA_gb CC_gb cCa_gb cCa_gf cCa_lap
                cCO3_gb cCO3_gf cCO3_lap Phi_gb Phi_gf Phi_lap dx i in
     let dPhi := auxcon m * c_F c * Phi i ^ 3 / (1 - Phi i) in
     c_sigma_cCa c = fv_weight_spec (c_W c * dx * c_denominator c / (2 * dCa m)) (c_W c) /\
     c_sigma_cCO3 c = fv_weight_spec (c_W c * dx * c_denominator c / (2 * dCO3 m)) (c_W c) /\
     c_sigma_Phi c = fv_weight_spec (c_W c * dx / (2 * dPhi)) (c_W c) /\
     c_cCa_grad c = 0.5 * ((1 - c_sigma_cCa c) * cCa_gf i + (1 + c_sigma_cCa c) * cCa_gb i) /\
     c_cCO3_grad c = 0.5 * ((1 - c_sigma_cCO3 c) * cCO3_gf i + (1 + c_sigma_cCO3 c) * cCO3_gb i) /\
     c_Phi_grad c = 0.5 * ((1 - c_sigma_Phi c) * Phi_gf i + (1 + c_sigma_Phi c) * Phi_gb i)).
Proof.
  intros m.
  assert (Hs : forall Pe W, sigma_at Pe W (Peclet_min m) (Peclet_max m) = fv_weight_spec Pe W)
    by apply sigma_at_init.
  clearbody m. split; [|split].
  - intros Peclet W_data i. unfold calculate_sigma. apply Hs.
  - intros y i. unfold fun_locals; cbn -[sigma_at grad_back grad_forw].
    unfold lift2, cst, amap; cbn beta.
    rewrite <- !Hs. repeat split; reflexivity.
  - intros. unfold pde_rhs_cell; cbn.
    rewrite <- !Hs. repeat split; reflexivity.
Qed.

(** ** The state vector layout *)

Lemma field_slice_width (N f : nat) : (S f * N - f * N = N)%nat.
Proof. simpl. lia. Qed.

Lemma field_slice_app_0 (N : nat) (a r : list R) :
  length a = N -> field_slice N 0 (a ++ r) = a.
Proof.
  intros Ha. unfold field_slice, py_slice. rewrite field_slice_width. simpl.
  subst N. rewrite firstn_app, Nat.sub_diag, firstn_O, app_nil_r.
  apply firstn_all.
Qed.

Lemma field_slice_app_S (N f : nat) (a r : list R) :
  length a = N -> field_slice N (S f) (a ++ r) = field_slice N f r.
Proof.
  intros Ha. unfold field_slice, py_slice. rewrite !field_slice_width.
  rewrite skipn_app. replace (S f * N - length a)%nat with (f * N)%nat by (simpl; lia).
  rewrite skipn_all2 by (simpl; lia). reflexivity.
Qed.

Lemma field_slice_all (N : nat) (a : list R) :
  length a = N -> field_slice N 0 a = a.
Proof.
  intros Ha. transitivity (field_slice N 0 (a ++ [])).
  - now rewrite app_nil_r.
  - now apply field_slice_app_0.
Qed.

(** C8. Layout round trip: flattening five arrays of length [N] in the
    order CA, CC, cCa, cCO3, Phi and cutting the result with the field
    slices [[f*N, (f+1)*N)] gives the five arrays back. *)
Theorem unpack_flatten (N : nat) (CA CC cCa cCO3 Phi : list R)
    (HCA : length CA = N) (HCC : length CC = N) (HcCa : length cCa = N)
    (HcCO3 : length cCO3 = N) (HPhi : length Phi = N) :
  unpack5 N (flatten5 CA CC cCa cCO3 Phi) = (CA, CC, cCa, cCO3, Phi).
Proof.
  unfold unpack5, flatten5.
  rewrite field_slice_app_0 by exact HCA.
  rewrite !field_slice_app_S by assumption.
  rewrite field_slice_app_0 by exact HCC.
  rewrite field_slice_app_0 by exact HcCa.
  rewrite field_slice_app_0 by exact HcCO3.
  rewrite field_slice_all by exact HPhi.
  reflexivity.
Qed.

Lemma unpack_flatten_witness :
  (length [1; 2] = 2%nat /\ length [3; 4] = 2%nat /\ length [5; 6] = 2%nat /\
   length [7; 8] = 2%nat /\ length [1 / 2; 1 / 4] = 2%nat) /\
  unpack5 2 (flatten5 [1; 2] [3; 4] [5; 6] [7; 8] [1 / 2; 1 / 4])
  = ([1; 2], [3; 4], [5; 6], [7; 8], [1 / 2; 1 / 4]).
Proof.
  split; [repeat split; reflexivity|].
  apply unpack_flatten; reflexivity.
Defined.

(** ** The Jacobian sparsity pattern *)

Lemma block_index_inj (N i i' k k' : nat) :
  (i * N + k = i' * N + k')%nat -> (k < N)%nat -> (k' < N)%nat -> i = i' /\ k = k'.
Proof.
  intros E Hk Hk'.
  destruct (Nat.lt_trichotomy i i') as [H|[H|H]].
  - assert (S i * N <= i' * N)%nat by (apply Nat.mul_le_mono_r; lia). simpl in *; lia.
  - subst. lia.
  - assert (S i' * N <= i * N)%nat by (apply Nat.mul_le_mono_r; lia). simpl in *; lia.
Qed.

Lemma count_occ_flat_map {A : Type} (f : A -> list (nat * nat)) (l : list A) x :
  count_occ pair_eq_dec (flat_map f l) x
  = list_sum (map (fun z => count_occ pair_eq_dec (f z) x) l).
Proof.
  induction l as [|z l IH]; simpl; [reflexivity|].
  rewrite count_occ_app, IH. reflexivity.
Qed.

Lemma count_block_prefix (N i j bi bj a b n : nat) :
  (a < N)%nat -> (b < N)%nat -> (n <= N)%nat ->
  count_occ pair_eq_dec (map (fun k => (i * N + k, j * N + k)%nat) (seq 0 n))
    (bi * N + a, bj * N + b)%nat
  = if (Nat.eqb i bi && Nat.eqb j bj && Nat.eqb a b && Nat.ltb a n)%bool then 1%nat else 0%nat.
Proof.
  intros Ha Hb. induction n as [|n IH]; intros Hn.
  - simpl. replace (Nat.ltb a 0) with false by (destruct a; reflexivity).
    rewrite Bool.andb_false_r. reflexivity.
  - rewrite seq_S, map_app, count_occ_app, IH by lia. cbn -[pair_eq_dec Nat.mul Nat.add].
    destruct pair_eq_dec as [E|E].
    + injection E as E1 E2.
      apply block_index_inj in E1; try lia. apply block_index_inj in E2; try lia.
      destruct E1 as [E3 E4], E2 as [E5 E6]. subst.
      rewrite !Nat.eqb_refl, Nat.leb_refl. simpl.
      destruct b as [|b']; [reflexivity|].
      rewrite (proj2 (Nat.leb_gt _ _)) by lia. reflexivity.
    + destruct (Nat.eqb_spec i bi), (Nat.eqb_spec j bj), (Nat.eqb_spec a b); simpl;
        try (rewrite ?Nat.add_0_r; reflexivity).
      subst. assert (b <> n) by (intros ->; apply E; reflexivity).
      rewrite Nat.add_0_r. destruct n as [|n'].
      * destruct (Nat.leb_spec b 0); [lia|reflexivity].
      * destruct (Nat.leb_spec b n'), (Nat.leb_spec b (S n')); try lia; reflexivity.
Qed.

Lemma count_block (N i j bi bj a b : nat) :
  (a < N)%nat -> (b < N)%nat ->
  count_occ pair_eq_dec (block_coo N i j) (bi * N + a, bj * N + b)%nat
  = if (Nat.eqb i bi && Nat.eqb j bj && Nat.eqb a b)%bool then 1%nat else 0%nat.
Proof.
  intros Ha Hb. unfold block_coo. rewrite count_block_prefix by lia.
  replace (Nat.ltb a N) with true by (symmetry; apply Nat.ltb_lt; lia).
  rewrite Bool.andb_true_r. reflexivity.
Qed.

(** C3. Viewed as a 5x5 grid of [N]x[N] blocks, the sparsity pattern has
    a nonzero exactly at the diagonal entries of the blocks [(i, j)] with
    [i < no_fields - 1] or [j > 1], i.e. of every block except
    (Phi-row, CA-column) and (Phi-row, CC-column); there is no off-diagonal
    nonzero in any block. *)
Theorem jacobian_sparsity_blocks (N bi bj a b : nat)
    (Hbi : (bi < no_fields)%nat) (Hbj : (bj < no_fields)%nat)
    (Ha : (a < N)%nat) (Hb : (b < N)%nat) :
  csr_entry (jacobian_sparsity N) (bi * N + a) (bj * N + b)
  = (if (Nat.eqb a b && (Nat.ltb bi (no_fields - 1) || Nat.ltb 1 bj))%bool
     then 1 else 0)%nat /\
  (Nat.ltb bi (no_fields - 1) || Nat.ltb 1 bj)%bool
  = negb (Nat.eqb bi 4 && (Nat.eqb bj 0 || Nat.eqb bj 1))%bool.
Proof.
  split.
  - unfold csr_entry, jacobian_sparsity.
    rewrite count_occ_flat_map.
    rewrite (map_ext _ (fun i => list_sum (map (fun j =>
               if (Nat.ltb i (no_fields - 1) || Nat.ltb 1 j)%bool
               then (if (Nat.eqb i bi && Nat.eqb j bj && Nat.eqb a b)%bool then 1 else 0)
               else 0) (seq 0 no_fields)))%nat).
    2: { intros i. rewrite count_occ_flat_map. f_equal. apply map_ext. intros j.
         destruct (Nat.ltb i (no_fields - 1) || Nat.ltb 1 j)%bool.
         - now apply count_block.
         - reflexivity. }
    unfold no_fields in *;
    destruct bi as [|[|[|[|[|bi]]]]]; try lia;
      destruct bj as [|[|[|[|[|bj]]]]]; try lia;
      simpl; destruct (Nat.eqb a b); reflexivity.
  - unfold no_fields in *;
    destruct bi as [|[|[|[|[|bi]]]]]; try lia;
      destruct bj as [|[|[|[|[|bj]]]]]; try lia; reflexivity.
Qed.

Lemma jacobian_sparsity_blocks_witness :
  ((4 < no_fields)%nat /\ (1 < no_fields)%nat /\ (2 < 3)%nat /\ (2 < 3)%nat) /\
  csr_entry (jacobian_sparsity 3) (4 * 3 + 2) (1 * 3 + 2)
  = (if (Nat.eqb 2 2 && (Nat.ltb 4 (no_fields - 1) || Nat.ltb 1 1))%bool then 1 else 0)%nat /\
  (Nat.ltb 4 (no_fields - 1) || Nat.ltb 1 1)%bool
  = negb (Nat.eqb 4 4 && (Nat.eqb 1 0 || Nat.eqb 1 1))%bool.
Proof.
  split; [unfold no_fields; repeat split; lia|].
  apply jacobian_sparsity_blocks; unfold no_fields; lia.
Defined.

(** ** The progress counter *)

Lemma Int_part_nonneg (x : R) : 0 <= x -> (0 <= Int_part x)%Z.
Proof.
  intros Hx. destruct (base_Int_part x) as [_ H].
  assert (-1 < IZR (Int_part x)) by lra.
  apply lt_IZR in H0. lia.
Qed.

Lemma py_int_nonneg_bounds (x : R) : 0 <= x -> 0 <= IZR (py_int x) <= x.
Proof.
  intros Hx. unfold py_int. destruct (Rle_dec 0 x) as [_|]; [|lra].
  split.
  - apply IZR_le. now apply Int_part_nonneg.
  - apply base_Int_part.
Qed.

Lemma py_int_le_minus_one (x : R) : x <= -1 -> IZR (py_int x) <= -1.
Proof.
  intros Hx. unfold py_int. destruct (Rle_dec 0 x); [lra|].
  destruct (base_Int_part (- x)) as [_ H].
  assert (0 < IZR (Int_part (- x))) by lra.
  apply lt_IZR in H0. assert (1 <= IZR (Int_part (- x))) by (apply IZR_le; lia).
  rewrite opp_IZR. lra.
Qed.

Lemma Int_part_two : Int_part 2 = 2%Z.
Proof.
  unfold Int_part. rewrite <- (tech_up 2 3); [reflexivity | |]; simpl; lra.
Qed.

(** The call pattern of the solver the claim describes: a first call at
    [t = 3] followed by a re-evaluation at [t = 1] ([progress_dt = 1],
    [t0 = 0]). *)
Lemma last_t_decreases :
  let st0 := {| last_t := 0; pbar_n := 0 |} in
  let st1 := fst (fun_ example_model st0 3 [] 1 0) in
  let st2 := fst (fun_numba example_model st1 1 [] 1 0) in
  let st3 := jac_progress st1 1 1 0 in
  last_t st1 = 3 /\ last_t st2 = 1 /\ last_t st2 < last_t st1 /\
  last_t st3 < last_t st1.
Proof.
  assert (E1 : py_int ((3 - 0) / 1) = 3%Z).
  { unfold py_int. replace ((3 - 0) / 1) with 3 by field.
    destruct (Rle_dec 0 3); [|lra]. unfold Int_part.
    rewrite <- (tech_up 3 4); [reflexivity | |]; simpl; lra. }
  assert (E2 : py_int ((1 - 3) / 1) = (-2)%Z).
  { unfold py_int. replace ((1 - 3) / 1) with (-2) by field.
    destruct (Rle_dec 0 (-2)); [lra|]. replace (- -2) with 2 by ring. rewrite Int_part_two.
    reflexivity. }
  cbn -[py_int]. destruct (Req_dec_T 0 0) as [_|]; [|lra].
  rewrite E1. simpl IZR.
  destruct (Req_dec_T (0 + 3 * 1) 0) as [H|_]; [lra|].
  replace (0 + 3 * 1) with 3 by ring. rewrite E2. simpl IZR. lra.
Qed.

(** C9 (amended). [fun], [fun_numba] and [jac] update [last_t] in the same
    way: from [lt0] ([t0] when [last_t] is [0], [last_t] otherwise) to
    [lt0 + n * progress_dt] with [n = int((t - lt0) / progress_dt)].  With
    [progress_dt > 0], a call at a time [t >= lt0] does not decrease it (and
    does not move it past [t]); a call at a time [t <= lt0 - progress_dt]
    decreases it. *)
Theorem last_t_update (m : Model) (st : Progress) (t : R) (y : list R)
    (progress_dt t0 : R) (Hdt : 0 < progress_dt) :
  let lt0 := if Req_dec_T (last_t st) 0 then t0 else last_t st in
  fst (fun_ m st t y progress_dt t0) = progress_update st t progress_dt t0 /\
  fst (fun_numba m st t y progress_dt t0) = progress_update st t progress_dt t0 /\
  jac_progress st t progress_dt t0 = progress_update st t progress_dt t0 /\
  (lt0 <= t -> lt0 <= last_t (progress_update st t progress_dt t0) <= t) /\
  (t <= lt0 - progress_dt -> last_t (progress_update st t progress_dt t0) < lt0).
Proof.
  intros lt0. split; [reflexivity|]. split; [reflexivity|]. split; [reflexivity|].
  unfold progress_update. fold lt0. simpl.
  split.
  - intros Ht.
    assert (Hx : 0 <= (t - lt0) / progress_dt).
    { unfold Rdiv. apply Rmult_le_pos; [lra|]. left. now apply Rinv_0_lt_compat. }
    destruct (py_int_nonneg_bounds _ Hx) as [H0 H1].
    assert (IZR (py_int ((t - lt0) / progress_dt)) * progress_dt <= t - lt0).
    { replace (t - lt0) with ((t - lt0) / progress_dt * progress_dt) at 2 by (field; lra).
      apply Rmult_le_compat_r; lra. }
    split; [|lra]. assert (0 <= IZR (py_int ((t - lt0) / progress_dt)) * progress_dt)
      by (apply Rmult_le_pos; lra). lra.
  - intros Ht.
    assert (Hx : (t - lt0) / progress_dt <= -1).
    { apply (Rmult_le_reg_r progress_dt); [exact Hdt|].
      replace ((t - lt0) / progress_dt * progress_dt) with (t - lt0) by (field; lra). lra. }
    pose proof (py_int_le_minus_one _ Hx) as H.
    assert (IZR (py_int ((t - lt0) / progress_dt)) * progress_dt <= -1 * progress_dt)
      by (apply Rmult_le_compat_r; lra).
    lra.
Qed.

Lemma last_t_update_witness :
  (0 < 1) /\
  (let st := {| last_t := 3; pbar_n := 0 |} in
   let lt0 := if Req_dec_T (last_t st) 0 then 0 else last_t st in
   fst (fun_ example_model st 5 [] 1 0) = progress_update st 5 1 0 /\
   fst (fun_numba example_model st 5 [] 1 0) = progress_update st 5 1 0 /\
   jac_progress st 5 1 0 = progress_update st 5 1 0 /\
   (lt0 <= 5 -> lt0 <= last_t (progress_update st 5 1 0) <= 5) /\
   (5 <= lt0 - 1 -> last_t (progress_update st 5 1 0) < lt0)).
Proof.
  assert (H : (0 : R) < 1) by lra. split; [exact H|].
  exact (last_t_update example_model {| last_t := 3; pbar_n := 0 |} 5 [] 1 0 H).
Defined.

(** ** The two clamped copies of the saturation products *)

Lemma npow_zero_pos (e : R) : 0 < e -> npow 0 e = 0.
Proof.
  intros He. unfold npow. destruct (Req_dec_T 0 0); [|lra].
  destruct (Req_dec_T e 0); [lra | reflexivity].
Qed.

Lemma clamp_product_zero (P : R) : (1 - Rmin P 1) * (Rmax P 1 - 1) = 0.
Proof.
  destruct (Rle_dec P 1).
  - rewrite Rmax_right by lra. ring.
  - rewrite Rmin_right by lra. ring.
Qed.

Lemma py_clamp_product_zero (P : R) : (1 - py_min P 1) * (py_max P 1 - 1) = 0.
Proof.
  unfold py_min, py_max. destruct Rlt_dec, Rlt_dec; try lra; try ring.
  replace P with 1 by lra. ring.
Qed.

Lemma clamp_terms_exclusive (P c d e1 e2 : R) (He1 : 0 < e1) (He2 : 0 < e2) :
  (npow (1 - Rmin P 1) e1 * c = 0 \/ d * npow (Rmax P 1 - 1) e2 = 0) /\
  (npow (Rmax P 1 - 1) e2 = 0 \/ d * npow (1 - Rmin P 1) e1 = 0).
Proof.
  destruct (Rle_dec P 1).
  - rewrite Rmax_right by lra. replace (1 - 1) with 0 by ring.
    rewrite npow_zero_pos by exact He2. split; [right | left]; ring.
  - rewrite Rmin_right by lra. replace (1 - 1) with 0 by ring.
    rewrite npow_zero_pos by exact He1. split; [left; ring | right; ring].
Qed.

Lemma py_clamp_terms_exclusive (P c d e1 e2 : R) (He1 : 0 < e1) (He2 : 0 < e2) :
  (npow (1 - py_min P 1) e1 * c = 0 \/ d * npow (py_max P 1 - 1) e2 = 0) /\
  (npow (py_max P 1 - 1) e2 = 0 \/ d * npow (1 - py_min P 1) e1 = 0).
Proof.
  unfold py_min, py_max. destruct (Rlt_dec 1 P).
  - destruct (Rlt_dec P 1); [lra|]. replace (1 - 1) with 0 by ring.
    rewrite npow_zero_pos by exact He1. split; [left; ring | right; ring].
  - destruct (Rlt_dec P 1).
    + replace (1 - 1) with 0 by ring. rewrite npow_zero_pos by exact He2.
      split; [right | left]; ring.
    + assert (P = 1) by lra. subst. replace (1 - 1) with 0 by ring.
      rewrite npow_zero_pos by exact He1. split; [left; ring | right; ring].
Qed.

(** C10. The two clamped copies of a product [P] satisfy
    [(1 - min(P,1)) * (max(P,1) - 1) = 0]; hence, the reaction orders
    [m1, m2, n1, n2] being positive, at each cell at most one of the two
    power-law terms inside [coA] is nonzero, and likewise inside [coC], in
    [fun] ([np.fmin]/[np.fmax]) and in [pde_rhs] (builtin [min]/[max]). *)
Theorem saturation_clamp_exclusive (m : Model)
    (Hm1 : 0 < m1 m) (Hm2 : 0 < m2 m) (Hn1 : 0 < n1 m) (Hn2 : 0 < n2 m) :
  (forall P : R, (1 - Rmin P 1) * (Rmax P 1 - 1) = 0 /\
                 (1 - py_min P 1) * (py_max P 1 - 1) = 0) /\
  (forall (y : list R) (i : nat),
     let L := fun_locals m y in
     let two := fl_cCa L i * fl_cCO3 L i in
     let three := two * KRat m in
     let precA := npow (1 - Rmin three 1) (m2 m) * (not_too_deep m i * not_too_shallow m i) in
     let dissA := nu1 m * npow (Rmax three 1 - 1) (m1 m) in
     let precC := npow (Rmax two 1 - 1) (n1 m) in
     let dissC := nu2 m * npow (1 - Rmin two 1) (n2 m) in
     fl_coA L i = fl_CA L i * (precA - dissA) /\
     fl_coC L i = fl_CC L i * (precC - dissC) /\
     (precA = 0 \/ dissA = 0) /\ (precC = 0 \/ dissC = 0)) /\
  (forall (CA CC cCa cCO3 Phi CA_gb CC_gb cCa_gb cCa_gf cCa_lap cCO3_gb cCO3_gf cCO3_lap
           Phi_gb Phi_gf Phi_lap : arr) (dx : R) (i : nat),
     let c := pde_rhs_cell m CA CC cCa cCO3 Phi CA_gb CC_gb cCa_gb cCa_gf cCa_lap
                cCO3_gb cCO3_gf cCO3_lap Phi_gb Phi_gf Phi_lap dx i in
     let two := cCa i * cCO3 i in
     let three := two * KRat m in
     let precA := npow (1 - py_min three 1) (m2 m) * (not_too_deep m i * not_too_shallow m i) in
     let dissA := nu1 m * npow (py_max three 1 - 1) (m1 m) in
     let precC := npow (py_max two 1 - 1) (n1 m) in
     let dissC := nu2 m * npow (1 - py_min two 1) (n2 m) in
     c_coA c = CA i * (precA - dissA) /\
     c_coC c = CC i * (precC - dissC) /\
     (precA = 0 \/ dissA = 0) /\ (precC = 0 \/ dissC = 0)).
Proof.
  split; [|split].
  - intros P. split; [apply clamp_product_zero | apply py_clamp_product_zero].
  - intros y i L two three precA dissA precC dissC.
    destruct (clamp_terms_exclusive three (not_too_deep m i * not_too_shallow m i)
                (nu1 m) (m2 m) (m1 m) Hm2 Hm1) as [HA _].
    destruct (clamp_terms_exclusive two 1 (nu2 m) (n2 m) (n1 m) Hn2 Hn1) as [_ HC].
    split; [reflexivity|]. split; [reflexivity|]. split; [exact HA|exact HC].
  - intros. 
    destruct (py_clamp_terms_exclusive three (not_too_deep m i * not_too_shallow m i)
                (nu1 m) (m2 m) (m1 m) Hm2 Hm1) as [HA _].
    destruct (py_clamp_terms_exclusive two 1 (nu2 m) (n2 m) (n1 m) Hn2 Hn1) as [_ HC].
    split; [reflexivity|]. split; [reflexivity|]. split; [exact HA|exact HC].
Qed.

Lemma saturation_clamp_exclusive_witness :
  (0 < m1 example_model /\ 0 < m2 example_model /\
   0 < n1 example_model /\ 0 < n2 example_model) /\
  (1 - Rmin 3 1) * (Rmax 3 1 - 1) = 0.
Proof.
  assert (H1 : 0 < m1 example_model) by (simpl; lra).
  assert (H2 : 0 < m2 example_model) by (simpl; lra).
  assert (H3 : 0 < n1 example_model) by (simpl; lra).
  assert (H4 : 0 < n2 example_model) by (simpl; lra).
  split; [tauto|].
  exact (proj1 (proj1 (saturation_clamp_exclusive example_model H1 H2 H3 H4) 3)).
Defined.

(** ** Indexing the state and derivative vectors *)

Lemma nth_field_slice (N f i : nat) (y : list R) :
  (i < N)%nat -> nth i (field_slice N f y) 0 = nth (f * N + i) y 0.
Proof.
  intros Hi. unfold field_slice, py_slice. rewrite field_slice_width.
  rewrite nth_firstn. destruct (Nat.ltb_spec i N); [|lia].
  rewrite nth_skipn. reflexivity.
Qed.

Lemma length_map_seq (a : arr) (N : nat) : length (map a (seq 0 N)) = N.
Proof. now rewrite length_map, length_seq. Qed.

Lemma nth_ravel (N f i : nat) (fs : list arr) :
  (i < N)%nat -> (f < length fs)%nat ->
  nth (f * N + i) (ravel N fs) 0 = nth f fs (cst 0) i.
Proof.
  intros Hi. revert f. induction fs as [|a fs IH]; intros f Hf; simpl in Hf; [lia|].
  unfold ravel. simpl. fold (ravel N fs). destruct f as [|f].
  - simpl. rewrite app_nth1 by (rewrite length_map_seq; lia).
    rewrite nth_indep with (d' := a 0%nat) by (rewrite length_map_seq; lia).
    rewrite map_nth, seq_nth by lia. reflexivity.
  - rewrite app_nth2 by (rewrite length_map_seq; simpl; lia).
    rewrite length_map_seq. replace (S f * N + i - N)%nat with (f * N + i)%nat by (simpl; lia).
    apply IH. lia.
Qed.

Lemma length_ravel (N : nat) (fs : list arr) : length (ravel N fs) = (length fs * N)%nat.
Proof.
  induction fs as [|a fs IH]; [reflexivity|].
  unfold ravel in *; simpl. rewrite length_app, length_map_seq, IH. reflexivity.
Qed.

Lemma length_set_nth (k : nat) (v : R) (l : list R) : length (set_nth k v l) = length l.
Proof.
  revert k. induction l as [|x l IH]; intros [|k]; simpl; auto.
Qed.

Lemma nth_set_nth (j k : nat) (v : R) (l : list R) :
  (k < length l)%nat ->
  nth j (set_nth k v l) 0 = if Nat.eqb j k then v else nth j l 0.
Proof.
  revert j k. induction l as [|x l IH]; intros j k Hk; simpl in Hk; [lia|].
  destruct k as [|k], j as [|j]; simpl; try reflexivity.
  rewrite IH by lia. reflexivity.
Qed.

Lemma py_min_Rmin (a b : R) : py_min a b = Rmin a b.
Proof.
  unfold py_min, Rmin. destruct Rlt_dec, Rle_dec; lra.
Qed.

Lemma py_max_Rmax (a b : R) : py_max a b = Rmax a b.
Proof.
  unfold py_max, Rmax. destruct Rlt_dec, Rle_dec; lra.
Qed.

Lemma pde_rhs_loop (N : nat) (cell : nat -> Cell) (k : nat) :
  (k <= N)%nat ->
  let rate := fold_left (pde_rhs_step N cell) (seq 0 k) (repeat 0 (5 * N)) in
  length rate = (5 * N)%nat /\
  forall f i, (f < 5)%nat -> (i < k)%nat -> nth (f * N + i) rate 0 = rate_of (cell i) f.
Proof.
  induction k as [|k IH]; intros Hk rate.
  - split; [apply repeat_length | intros; lia].
  - subst rate. rewrite seq_S, fold_left_app. cbn [fold_left].
    destruct (IH ltac:(lia)) as [Hlen Hval].
    set (old := fold_left (pde_rhs_step N cell) (seq 0 k) (repeat 0 (5 * N))) in *.
    unfold pde_rhs_step.
    split; [rewrite !length_set_nth; exact Hlen|].
    intros f i Hf Hi.
    rewrite !nth_set_nth by (rewrite ?length_set_nth; lia).
    destruct (Nat.eq_dec i k) as [->|Hik].
    + destruct f as [|[|[|[|[|f]]]]]; try lia; simpl rate_of; decide_eqb; reflexivity.
    + assert (Hi' : (i < k)%nat) by lia.
      rewrite <- (Hval f i Hf Hi').
      destruct f as [|[|[|[|[|f]]]]]; try lia; decide_eqb; reflexivity.
Qed.

Lemma nth_pde_rhs (m : Model) (CA CC cCa cCO3 Phi CA_gb CC_gb cCa_gb cCa_gf cCa_lap
    cCO3_gb cCO3_gf cCO3_lap Phi_gb Phi_gf Phi_lap : arr) (dx : R) (N f i : nat) :
  (f < 5)%nat -> (i < N)%nat ->
  nth (f * N + i) (pde_rhs m CA CC cCa cCO3 Phi CA_gb CC_gb cCa_gb cCa_gf cCa_lap
                     cCO3_gb cCO3_gf cCO3_lap Phi_gb Phi_gf Phi_lap dx N) 0
  = rate_of (pde_rhs_cell m CA CC cCa cCO3 Phi CA_gb CC_gb cCa_gb cCa_gf cCa_lap
               cCO3_gb cCO3_gf cCO3_lap Phi_gb Phi_gf Phi_lap dx i) f.
Proof.
  intros Hf Hi. unfold pde_rhs.
  apply (pde_rhs_loop N _ N (le_n N)); assumption.
Qed.

Lemma length_pde_rhs (m : Model) (CA CC cCa cCO3 Phi CA_gb CC_gb cCa_gb cCa_gf cCa_lap
    cCO3_gb cCO3_gf cCO3_lap Phi_gb Phi_gf Phi_lap : arr) (dx : R) (N : nat) :
  length (pde_rhs m CA CC cCa cCO3 Phi CA_gb CC_gb cCa_gb cCa_gf cCa_lap
            cCO3_gb cCO3_gf cCO3_lap Phi_gb Phi_gf Phi_lap dx N) = (5 * N)%nat.
Proof. unfold pde_rhs. apply (pde_rhs_loop N _ N (le_n N)). Qed.

Lemma nth_fun_rhs (m : Model) (y : list R) (f i : nat) :
  (f < 5)%nat -> (i < no_depths m)%nat ->
  let L := fun_locals m y in
  nth (f * no_depths m + i) (fun_rhs m y) 0
  = nth f [fl_dCA_dt L; fl_dCC_dt L; fl_dcCa_dt L; fl_dcCO3_dt L; fl_dPhi_dt L] (cst 0) i.
Proof. intros Hf Hi L. unfold fun_rhs. apply nth_ravel; simpl; lia. Qed.

Lemma nth_fun_numba_rhs (m : Model) (y : list R) (f i : nat) :
  (f < 5)%nat -> (i < no_depths m)%nat ->
  let N := no_depths m in
  let dx := delta_x m in
  let CA := to_arr (field_slice N 0 y) in
  let CC := to_arr (field_slice N 1 y) in
  let cCa := to_arr (field_slice N 2 y) in
  let cCO3 := to_arr (field_slice N 3 y) in
  let Phi := to_arr (field_slice N 4 y) in
  nth (f * N + i) (fun_numba_rhs m y) 0
  = rate_of (pde_rhs_cell m CA CC cCa cCO3 Phi
               (grad_back dx N (bc_CA m) CA) (grad_back dx N (bc_CC m) CC)
               (grad_back dx N (bc_cCa m) cCa) (grad_forw dx N (bc_cCa m) cCa)
               (laplace dx N (bc_cCa m) cCa)
               (grad_back dx N (bc_cCO3 m) cCO3) (grad_forw dx N (bc_cCO3 m) cCO3)
               (laplace dx N (bc_cCO3 m) cCO3)
               (grad_back dx N (bc_Phi m) Phi) (grad_forw dx N (bc_Phi m) Phi)
               (laplace dx N (bc_Phi m) Phi) dx i) f.
Proof. intros Hf Hi. unfold fun_numba_rhs. now apply nth_pde_rhs. Qed.

Lemma length_fun_rhs (m : Model) (y : list R) : length (fun_rhs m y) = (5 * no_depths m)%nat.
Proof. unfold fun_rhs. rewrite length_ravel. reflexivity. Qed.

Lemma length_fun_numba_rhs (m : Model) (y : list R) :
  length (fun_numba_rhs m y) = (5 * no_depths m)%nat.
Proof. unfold fun_numba_rhs. apply length_pde_rhs. Qed.

(** ** The aragonite and calcite equations *)

Lemma fun_rhs_CA_CC (m : Model) (y : list R) (i : nat) (Hi : (i < no_depths m)%nat) :
  let N := no_depths m in
  let gCA := grad_back (delta_x m) N (bc_CA m) (to_arr (field_slice N 0 y)) i in
  let gCC := grad_back (delta_x m) N (bc_CC m) (to_arr (field_slice N 1 y)) i in
  (nth i (fun_rhs m y) 0, nth (N + i) (fun_rhs m y) 0)
  = spec_dCA_dCC m (nth i y 0) (nth (N + i) y 0) (nth (2 * N + i) y 0)
      (nth (3 * N + i) y 0) (nth (4 * N + i) y 0) gCA gCC
      (not_too_deep m i) (not_too_shallow m i).
Proof.
  intros N gCA gCC.
  pose proof (nth_fun_rhs m y 0 i ltac:(lia) Hi) as H0.
  pose proof (nth_fun_rhs m y 1 i ltac:(lia) Hi) as H1.
  simpl in H0, H1. rewrite Nat.add_0_r in H1. fold N in H0, H1.
  rewrite H0, H1. clear H0 H1.
  unfold fun_locals, spec_dCA_dCC, gCA, gCC. cbn zeta. fold N.
  unfold lift2, cst, amap, aneg, to_arr.
  unfold amap. rewrite !nth_field_slice by exact Hi.
  replace (0 * N + i)%nat with i by lia. replace (1 * N + i)%nat with (N + i)%nat by lia.
  set (c2 := nth (2 * N + i) y 0). set (c3 := nth (3 * N + i) y 0).
  replace (c2 * c3 * KRat m) with (KRat m * c2 * c3) by ring.
  clearbody c2 c3 gCA gCC N. f_equal.
 - set (P := nth (4 * N + i) y 0). replace (P * (P * (P * 1))) with (P ^ 3) by ring. ring.
 - set (P := nth (4 * N + i) y 0). replace (P * (P * (P * 1))) with (P ^ 3) by ring. ring.
Qed.

Lemma fun_numba_rhs_CA_CC (m : Model) (y : list R) (i : nat) (Hi : (i < no_depths m)%nat) :
  let N := no_depths m in
  let gCA := grad_back (delta_x m) N (bc_CA m) (to_arr (field_slice N 0 y)) i in
  let gCC := grad_back (delta_x m) N (bc_CC m) (to_arr (field_slice N 1 y)) i in
  (nth i (fun_numba_rhs m y) 0, nth (N + i) (fun_numba_rhs m y) 0)
  = spec_dCA_dCC m (nth i y 0) (nth (N + i) y 0) (nth (2 * N + i) y 0)
      (nth (3 * N + i) y 0) (nth (4 * N + i) y 0) gCA gCC
      (not_too_deep m i) (not_too_shallow m i).
Proof.
  intros N gCA gCC.
  pose proof (nth_fun_numba_rhs m y 0 i ltac:(lia) Hi) as H0.
  pose proof (nth_fun_numba_rhs m y 1 i ltac:(lia) Hi) as H1.
  cbv zeta in H0, H1. simpl Nat.mul in H0, H1. rewrite Nat.add_0_r in H1. simpl Nat.add in H0. fold N in H0, H1.
  rewrite H0, H1. clear H0 H1.
  unfold rate_of, pde_rhs_cell, spec_dCA_dCC, gCA, gCC. cbn zeta. cbn [c_rate_CA c_rate_CC].
  rewrite !py_min_Rmin, !py_max_Rmax.
  unfold to_arr. rewrite !nth_field_slice by exact Hi.
  replace (0 * N + i)%nat with i by lia. replace (1 * N + i)%nat with (N + i)%nat by lia.
  set (c2 := nth (2 * N + i) y 0). set (c3 := nth (3 * N + i) y 0).
  replace (c2 * c3 * KRat m) with (KRat m * c2 * c3) by ring.
  f_equal; ring.
Qed.

(** C1: at every cell [i < N], the first two blocks of the vector returned
    by [fun] and by [fun_numba] (through [pde_rhs]) are
    [dCA/dt = -U*grad(CA) - Da*((1-CA)*coA + lambda*CA*coC)] and
    [dCC/dt = -U*grad(CC) + Da*(lambda*(1-CC)*coC + CC*coA)], with [U], [F],
    [coA] and [coC] computed from the cell values of the state vector and
    [grad] the backward difference. *)
Theorem rhs_CA_CC_equations (m : Model) (y : list R) (i : nat)
  (Hi : (i < no_depths m)%nat) :
  let N := no_depths m in
  let gCA := grad_back (delta_x m) N (bc_CA m) (to_arr (field_slice N 0 y)) i in
  let gCC := grad_back (delta_x m) N (bc_CC m) (to_arr (field_slice N 1 y)) i in
  let expected := spec_dCA_dCC m (nth i y 0) (nth (N + i) y 0) (nth (2 * N + i) y 0)
                    (nth (3 * N + i) y 0) (nth (4 * N + i) y 0) gCA gCC
                    (not_too_deep m i) (not_too_shallow m i) in
  (nth i (fun_rhs m y) 0, nth (N + i) (fun_rhs m y) 0) = expected /\
  (nth i (fun_numba_rhs m y) 0, nth (N + i) (fun_numba_rhs m y) 0) = expected.
Proof.
  intros N gCA gCC expected. split.
  - exact (fun_rhs_CA_CC m y i Hi).
  - exact (fun_numba_rhs_CA_CC m y i Hi).
Qed.

Lemma rhs_CA_CC_equations_witness :
  (1 < no_depths example_model)%nat /\
  let m := example_model in
  let y := [1/2; 1/4; 1/3; 1/5; 1; 2; 1; 1; 1/2; 3/5] in
  let N := no_depths m in
  let gCA := grad_back (delta_x m) N (bc_CA m) (to_arr (field_slice N 0 y)) 1%nat in
  let gCC := grad_back (delta_x m) N (bc_CC m) (to_arr (field_slice N 1 y)) 1%nat in
  let expected := spec_dCA_dCC m (nth 1%nat y 0) (nth (N + 1)%nat y 0) (nth (2 * N + 1)%nat y 0)
                    (nth (3 * N + 1)%nat y 0) (nth (4 * N + 1)%nat y 0) gCA gCC
                    (not_too_deep m 1%nat) (not_too_shallow m 1%nat) in
  (nth 1%nat (fun_rhs m y) 0, nth (N + 1)%nat (fun_rhs m y) 0) = expected /\
  (nth 1%nat (fun_numba_rhs m y) 0, nth (N + 1)%nat (fun_numba_rhs m y) 0) = expected.
Proof.
  assert (H : (1 < no_depths example_model)%nat) by (simpl; lia).
  split; [exact H|].
  exact (rhs_CA_CC_equations example_model
           [1/2; 1/4; 1/3; 1/5; 1; 2; 1; 1; 1/2; 3/5] 1%nat H).
Defined.

(** ** The unused bottom condition of CA and CC *)

Lemma grad_back_bottom (dx : R) (N i : nat) (bc : BCPair) (b1 b2 : BC) (f : arr) :
  (i < N)%nat ->
  grad_back dx N (with_bottom bc b1) f i = grad_back dx N (with_bottom bc b2) f i.
Proof.
  intros Hi. unfold grad_back, padded, with_bottom. cbn [bc_top].
  destruct (Nat.ltb_spec i N); [|lia].
  destruct i as [|k]; [reflexivity|].
  destruct (Nat.ltb_spec k N); [reflexivity|lia].
Qed.

Lemma spec_dCA_dCC_with_bc_CA (m : Model) (bc : BCPair) :
  spec_dCA_dCC (with_bc_CA m bc) = spec_dCA_dCC m.
Proof. reflexivity. Qed.

Lemma spec_dCA_dCC_with_bc_CC (m : Model) (bc : BCPair) :
  spec_dCA_dCC (with_bc_CC m bc) = spec_dCA_dCC m.
Proof. reflexivity. Qed.

(** C6: the bottom boundary condition of CA (and of CC) never reaches the
    backward gradient of CA (of CC), nor the CA (CC) block of the vector
    returned by [fun] and by [fun_numba]: two runs that differ only in that
    condition agree there at every cell. *)
Theorem bottom_bc_noninterference (m : Model) (y : list R) (b1 b2 : BC) (i : nat)
  (Hi : (i < no_depths m)%nat) :
  let N := no_depths m in
  let dx := delta_x m in
  let mA1 := with_bc_CA m (with_bottom (bc_CA m) b1) in
  let mA2 := with_bc_CA m (with_bottom (bc_CA m) b2) in
  let mC1 := with_bc_CC m (with_bottom (bc_CC m) b1) in
  let mC2 := with_bc_CC m (with_bottom (bc_CC m) b2) in
  (grad_back dx N (bc_CA mA1) (to_arr (field_slice N 0 y)) i
   = grad_back dx N (bc_CA mA2) (to_arr (field_slice N 0 y)) i /\
   nth i (fun_rhs mA1 y) 0 = nth i (fun_rhs mA2 y) 0 /\
   nth i (fun_numba_rhs mA1 y) 0 = nth i (fun_numba_rhs mA2 y) 0) /\
  (grad_back dx N (bc_CC mC1) (to_arr (field_slice N 1 y)) i
   = grad_back dx N (bc_CC mC2) (to_arr (field_slice N 1 y)) i /\
   nth (N + i) (fun_rhs mC1 y) 0 = nth (N + i) (fun_rhs mC2 y) 0 /\
   nth (N + i) (fun_numba_rhs mC1 y) 0 = nth (N + i) (fun_numba_rhs mC2 y) 0).
Proof.
  intros N dx mA1 mA2 mC1 mC2.
  assert (GA : grad_back dx N (bc_CA mA1) (to_arr (field_slice N 0 y)) i
               = grad_back dx N (bc_CA mA2) (to_arr (field_slice N 0 y)) i)
    by (apply grad_back_bottom; exact Hi).
  assert (GC : grad_back dx N (bc_CC mC1) (to_arr (field_slice N 1 y)) i
               = grad_back dx N (bc_CC mC2) (to_arr (field_slice N 1 y)) i)
    by (apply grad_back_bottom; exact Hi).
  pose proof (fun_rhs_CA_CC mA1 y i Hi) as FA1.
  pose proof (fun_rhs_CA_CC mA2 y i Hi) as FA2.
  pose proof (fun_numba_rhs_CA_CC mA1 y i Hi) as PA1.
  pose proof (fun_numba_rhs_CA_CC mA2 y i Hi) as PA2.
  pose proof (fun_rhs_CA_CC mC1 y i Hi) as FC1.
  pose proof (fun_rhs_CA_CC mC2 y i Hi) as FC2.
  pose proof (fun_numba_rhs_CA_CC mC1 y i Hi) as PC1.
  pose proof (fun_numba_rhs_CA_CC mC2 y i Hi) as PC2.
  cbv zeta in FA1, FA2, PA1, PA2, FC1, FC2, PC1, PC2.
  unfold mA1, mA2, mC1, mC2 in *.
  rewrite !spec_dCA_dCC_with_bc_CA in FA1, FA2, PA1, PA2.
  rewrite !spec_dCA_dCC_with_bc_CC in FC1, FC2, PC1, PC2.
  cbn [no_depths delta_x bc_CA bc_CC not_too_deep not_too_shallow with_bc_CA with_bc_CC]
    in FA1, FA2, PA1, PA2, FC1, FC2, PC1, PC2, GA, GC.
  fold N dx in FA1, FA2, PA1, PA2, FC1, FC2, PC1, PC2, GA, GC.
  rewrite <- GA in FA2, PA2. rewrite <- GC in FC2, PC2.
  split; [split; [exact GA|split]|split; [exact GC|split]].
  - apply (f_equal fst) in FA1, FA2. cbn [fst] in FA1, FA2. congruence.
  - apply (f_equal fst) in PA1, PA2. cbn [fst] in PA1, PA2. congruence.
  - apply (f_equal snd) in FC1, FC2. cbn [snd] in FC1, FC2. congruence.
  - apply (f_equal snd) in PC1, PC2. cbn [snd] in PC1, PC2. congruence.
Qed.

Lemma bottom_bc_noninterference_witness :
  (0 < no_depths example_model)%nat /\
  let m := example_model in
  let y := [1/2; 1/4; 1/3; 1/5; 1; 2; 1; 1; 1/2; 3/5] in
  let N := no_depths m in
  let dx := delta_x m in
  let mA1 := with_bc_CA m (with_bottom (bc_CA m) (BCvalue (10 ^ 99))) in
  let mA2 := with_bc_CA m (with_bottom (bc_CA m) (BCvalue 7)) in
  let mC1 := with_bc_CC m (with_bottom (bc_CC m) (BCvalue (10 ^ 99))) in
  let mC2 := with_bc_CC m (with_bottom (bc_CC m) (BCvalue 7)) in
  (grad_back dx N (bc_CA mA1) (to_arr (field_slice N 0 y)) 0%nat
   = grad_back dx N (bc_CA mA2) (to_arr (field_slice N 0 y)) 0%nat /\
   nth 0%nat (fun_rhs mA1 y) 0 = nth 0%nat (fun_rhs mA2 y) 0 /\
   nth 0%nat (fun_numba_rhs mA1 y) 0 = nth 0%nat (fun_numba_rhs mA2 y) 0) /\
  (grad_back dx N (bc_CC mC1) (to_arr (field_slice N 1 y)) 0%nat
   = grad_back dx N (bc_CC mC2) (to_arr (field_slice N 1 y)) 0%nat /\
   nth (N + 0)%nat (fun_rhs mC1 y) 0 = nth (N + 0)%nat (fun_rhs mC2 y) 0 /\
   nth (N + 0)%nat (fun_numba_rhs mC1 y) 0 = nth (N + 0)%nat (fun_numba_rhs mC2 y) 0).
Proof.
  assert (H : (0 < no_depths example_model)%nat) by (simpl; lia).
  split; [exact H|].
  exact (bottom_bc_noninterference example_model
           [1/2; 1/4; 1/3; 1/5; 1; 2; 1; 1; 1/2; 3/5]
           (BCvalue (10 ^ 99)) (BCvalue 7) 0%nat H).
Defined.

(** ** [fun] and [fun_numba] compute the same vector *)

Lemma Peclet_div_div (a b c : R) : a / 2 * b / c = a * b / (2 * c).
Proof. unfold Rdiv. rewrite Rinv_mult. ring. Qed.

Lemma Peclet_div (a c : R) : a / 2 / c = a / (2 * c).
Proof. unfold Rdiv. rewrite Rinv_mult. ring. Qed.

Lemma fun_locals_cell (m : Model) (y : list R) (i : nat) :
  let N := no_depths m in
  let dx := delta_x m in
  let CA := to_arr (field_slice N 0 y) in
  let CC := to_arr (field_slice N 1 y) in
  let cCa := to_arr (field_slice N 2 y) in
  let cCO3 := to_arr (field_slice N 3 y) in
  let Phi := to_arr (field_slice N 4 y) in
  let L := fun_locals m y in
  let c := pde_rhs_cell m CA CC cCa cCO3 Phi
               (grad_back dx N (bc_CA m) CA) (grad_back dx N (bc_CC m) CC)
               (grad_back dx N (bc_cCa m) cCa) (grad_forw dx N (bc_cCa m) cCa)
               (laplace dx N (bc_cCa m) cCa)
               (grad_back dx N (bc_cCO3 m) cCO3) (grad_forw dx N (bc_cCO3 m) cCO3)
               (laplace dx N (bc_cCO3 m) cCO3)
               (grad_back dx N (bc_Phi m) Phi) (grad_forw dx N (bc_Phi m) Phi)
               (laplace dx N (bc_Phi m) Phi) dx i in
  fl_dCA_dt L i = c_rate_CA c /\ fl_dCC_dt L i = c_rate_CC c /\
  fl_dcCa_dt L i = c_rate_cCa c /\ fl_dcCO3_dt L i = c_rate_cCO3 c /\
  fl_dPhi_dt L i = c_rate_Phi c.
Proof.
  intros N dx CA CC cCa cCO3 Phi L c.
  unfold L, c, fun_locals, pde_rhs_cell.
  cbv beta iota zeta delta [fl_dCA_dt fl_dCC_dt fl_dcCa_dt fl_dcCO3_dt fl_dPhi_dt
    c_rate_CA c_rate_CC c_rate_cCa c_rate_cCO3 c_rate_Phi
    lift2 amap cst aneg calculate_sigma sigma_at].
  rewrite !py_min_Rmin, !py_max_Rmax, !Peclet_div_div, !Peclet_div.
  fold N dx CA CC cCa cCO3 Phi.
  unfold Rdiv. repeat split; ring.
Qed.

Lemma fun_rhs_fun_numba_rhs (m : Model) (y : list R) :
  fun_rhs m y = fun_numba_rhs m y.
Proof.
  apply nth_ext with (d := 0) (d' := 0).
  { rewrite length_fun_rhs, length_fun_numba_rhs. reflexivity. }
  intros k Hk. rewrite length_fun_rhs in Hk.
  assert (HN : no_depths m <> 0%nat) by lia.
  pose proof (Nat.div_mod k (no_depths m) HN) as Hkd.
  pose proof (Nat.mod_upper_bound k (no_depths m) HN) as Hi.
  assert (Hf : (k / no_depths m < 5)%nat).
  { apply Nat.Div0.div_lt_upper_bound. lia. }
  set (f := (k / no_depths m)%nat) in *. set (i := (k mod no_depths m)%nat) in *.
  replace k with (f * no_depths m + i)%nat by (rewrite Hkd; ring).
  rewrite (nth_fun_rhs m y f i Hf Hi), (nth_fun_numba_rhs m y f i Hf Hi).
  destruct (fun_locals_cell m y i) as (E1 & E2 & E3 & E4 & E5).
  destruct f as [|[|[|[|[|f']]]]]; [ | | | | | lia];
    cbv beta iota zeta delta [nth rate_of]; assumption.
Qed.

(** C4: over exact real arithmetic, [fun] (array expressions) and
    [fun_numba] (the per-cell loop of [pde_rhs]) return the same progress
    state and the same derivative vector, for every time and state vector. *)
Theorem fun_fun_numba_equal (m : Model) (st : Progress) (t : R) (y : list R)
  (progress_dt t0 : R) :
  fun_ m st t y progress_dt t0 = fun_numba m st t y progress_dt t0.
Proof.
  unfold fun_, fun_numba. rewrite fun_rhs_fun_numba_rhs. reflexivity.
Qed.

(** ** The event predicates *)

Lemma fold_left_Rmin_spec (t : list R) (x : R) :
  is_min (fold_left Rmin t x) (x :: t).
Proof.
  revert x. induction t as [|a t IH]; intros x; simpl.
  - split; [left; reflexivity|]. intros z [<-|[]]. lra.
  - destruct (IH (Rmin x a)) as [Hin Hle]. split.
    + destruct Hin as [E|Hin].
      * rewrite <- E. unfold Rmin. destruct (Rle_dec x a); simpl; tauto.
      * simpl. tauto.
    + intros z Hz. destruct Hz as [<-|[<-|Hz]].
      * eapply Rle_trans; [apply Hle; left; reflexivity | apply Rmin_l].
      * eapply Rle_trans; [apply Hle; left; reflexivity | apply Rmin_r].
      * apply Hle. right. exact Hz.
Qed.

Lemma fold_left_Rmax_spec (t : list R) (x : R) :
  is_max (fold_left Rmax t x) (x :: t).
Proof.
  revert x. induction t as [|a t IH]; intros x; simpl.
  - split; [left; reflexivity|]. intros z [<-|[]]. lra.
  - destruct (IH (Rmax x a)) as [Hin Hle]. split.
    + destruct Hin as [E|Hin].
      * rewrite <- E. unfold Rmax. destruct (Rle_dec x a); simpl; tauto.
      * simpl. tauto.
    + intros z Hz. destruct Hz as [<-|[<-|Hz]].
      * eapply Rle_trans; [apply Rmax_l | apply Hle; left; reflexivity].
      * eapply Rle_trans; [apply Rmax_r | apply Hle; left; reflexivity].
      * apply Hle. right. exact Hz.
Qed.

Lemma amin_spec (l : list R) : l <> [] -> exists v, amin l = Some v /\ is_min v l.
Proof.
  destruct l as [|x t]; [congruence|]. intros _. simpl.
  eexists; split; [reflexivity | apply fold_left_Rmin_spec].
Qed.

Lemma amax_spec (l : list R) : l <> [] -> exists v, amax l = Some v /\ is_max v l.
Proof.
  destruct l as [|x t]; [congruence|]. intros _. simpl.
  eexists; split; [reflexivity | apply fold_left_Rmax_spec].
Qed.

Lemma length_field_slice (N f : nat) (y : list R) :
  (f < 5)%nat -> length y = (5 * N)%nat -> length (field_slice N f y) = N.
Proof.
  intros Hf Hy. unfold field_slice, py_slice.
  rewrite length_firstn, length_skipn, field_slice_width, Hy.
  apply Nat.min_l. nia.
Qed.

Lemma nonempty_length (l : list R) (N : nat) : length l = N -> (0 < N)%nat -> l <> [].
Proof. intros H HN E. subst. simpl in HN. lia. Qed.

Lemma length_vmap (f : R -> R) (a : list R) : length (vmap f a) = length a.
Proof. apply length_map. Qed.

Lemma length_vzip (op : R -> R -> R) (a b : list R) :
  length a = length b -> length (vzip op a b) = length a.
Proof. intros H. unfold vzip. rewrite length_map, length_combine, H. apply Nat.min_id. Qed.

Lemma nth_vmap (f : R -> R) (a : list R) (i : nat) :
  (i < length a)%nat -> nth i (vmap f a) 0 = f (nth i a 0).
Proof.
  intros Hi. unfold vmap. rewrite nth_indep with (l := map f a) (d' := f 0) by (rewrite length_map; exact Hi).
  apply map_nth.
Qed.

Lemma nth_vzip (op : R -> R -> R) (a b : list R) (i : nat) :
  (i < length a)%nat -> length a = length b ->
  nth i (vzip op a b) 0 = op (nth i a 0) (nth i b 0).
Proof.
  intros Hi Hab. unfold vzip.
  pose (g := fun p : R * R => op (fst p) (snd p)).
  change (nth i (map g (combine a b)) 0 = op (nth i a 0) (nth i b 0)).
  rewrite nth_indep with (l := map g (combine a b)) (d' := g (0, 0))
    by (rewrite length_map, length_combine; lia).
  rewrite map_nth, combine_nth by exact Hab. reflexivity.
Qed.

Lemma In_field_slice (N f : nat) (y : list R) (x : R) :
  (f < 5)%nat -> length y = (5 * N)%nat -> In x (field_slice N f y) ->
  exists j, (j < N)%nat /\ x = nth (f * N + j) y 0.
Proof.
  intros Hf Hy Hx. apply (In_nth _ _ 0) in Hx as [j [Hj E]].
  rewrite (length_field_slice N f y Hf Hy) in Hj.
  exists j. split; [exact Hj|]. rewrite <- E. apply nth_field_slice. exact Hj.
Qed.

Lemma zeros_U_list (m : Model) (y : list R) :
  length y = (5 * no_depths m)%nat ->
  let Phi := field_slice (no_depths m) 4 y in
  let F := vmap (fun x => 1 - x) (vmap exp (vmap (fun p => 10 - 10 / p) Phi)) in
  vmap (fun x => presum m + x)
    (vzip Rdiv (vzip Rmult (vmap (fun p => rhorat m * p ^ 3) Phi) F)
       (vmap (fun p => 1 - p) Phi))
  = map (fl_U (fun_locals m y)) (seq 0 (no_depths m)).
Proof.
  intros Hy Phi F.
  assert (HP : length Phi = no_depths m) by (apply length_field_slice; [lia | exact Hy]).
  assert (LF : length F = no_depths m) by (unfold F; rewrite !length_vmap; exact HP).
  set (A := vmap (fun p => rhorat m * p ^ 3) Phi).
  assert (LA : length A = no_depths m) by (unfold A; rewrite length_vmap; exact HP).
  set (B := vzip Rmult A F).
  assert (LB : length B = no_depths m) by (unfold B; rewrite length_vzip; congruence).
  set (C := vmap (fun p => 1 - p) Phi).
  assert (LC : length C = no_depths m) by (unfold C; rewrite length_vmap; exact HP).
  set (D := vzip Rdiv B C).
  assert (LD : length D = no_depths m) by (unfold D; rewrite length_vzip; congruence).
  apply nth_ext with (d := 0) (d' := 0).
  - rewrite length_vmap, LD, length_map, length_seq. reflexivity.
  - intros i Hi. rewrite length_vmap, LD in Hi.
    rewrite nth_indep with (l := map (fl_U (fun_locals m y)) (seq 0 (no_depths m)))
      (d' := fl_U (fun_locals m y) 0%nat) by (rewrite length_map, length_seq; exact Hi).
    rewrite map_nth, seq_nth by exact Hi.
    rewrite nth_vmap by (rewrite LD; exact Hi).
    unfold D. rewrite nth_vzip by (rewrite ?LB, ?LC; lia).
    unfold B. rewrite nth_vzip by (rewrite ?LA, ?LF; lia).
    unfold A, C, F. rewrite !nth_vmap by (rewrite ?length_vmap; lia).
    reflexivity.
Qed.

Lemma zeros_W_list (m : Model) (y : list R) :
  length y = (5 * no_depths m)%nat ->
  let Phi := field_slice (no_depths m) 4 y in
  let F := vmap (fun x => 1 - x) (vmap exp (vmap (fun p => 10 - 10 / p) Phi)) in
  vmap (fun x => presum m - x) (vzip Rmult (vmap (fun p => rhorat m * p ^ 2) Phi) F)
  = map (fl_W (fun_locals m y)) (seq 0 (no_depths m)).
Proof.
  intros Hy Phi F.
  assert (HP : length Phi = no_depths m) by (apply length_field_slice; [lia | exact Hy]).
  assert (LF : length F = no_depths m) by (unfold F; rewrite !length_vmap; exact HP).
  set (A := vmap (fun p => rhorat m * p ^ 2) Phi).
  assert (LA : length A = no_depths m) by (unfold A; rewrite length_vmap; exact HP).
  set (B := vzip Rmult A F).
  assert (LB : length B = no_depths m) by (unfold B; rewrite length_vzip; congruence).
  apply nth_ext with (d := 0) (d' := 0).
  - rewrite length_vmap, LB, length_map, length_seq. reflexivity.
  - intros i Hi. rewrite length_vmap, LB in Hi.
    rewrite nth_indep with (l := map (fl_W (fun_locals m y)) (seq 0 (no_depths m)))
      (d' := fl_W (fun_locals m y) 0%nat) by (rewrite length_map, length_seq; exact Hi).
    rewrite map_nth, seq_nth by exact Hi.
    rewrite nth_vmap by (rewrite LB; exact Hi).
    unfold B. rewrite nth_vzip by (rewrite ?LA, ?LF; lia).
    unfold A, F. rewrite !nth_vmap by (rewrite ?length_vmap; lia).
    reflexivity.
Qed.

Lemma CA_plus_CC_list (m : Model) (y : list R) :
  length y = (5 * no_depths m)%nat ->
  let N := no_depths m in
  vzip Rplus (field_slice N 0 y) (field_slice N 1 y)
  = map (fun i => nth i y 0 + nth (N + i) y 0) (seq 0 N).
Proof.
  intros Hy N.
  assert (H0 : length (field_slice N 0 y) = N) by (apply length_field_slice; [lia | exact Hy]).
  assert (H1 : length (field_slice N 1 y) = N) by (apply length_field_slice; [lia | exact Hy]).
  apply nth_ext with (d := 0) (d' := 0).
  - rewrite length_vzip by congruence. rewrite H0, length_map, length_seq. reflexivity.
  - intros i Hi. rewrite length_vzip, H0 in Hi by congruence.
    pose (g := fun i => nth i y 0 + nth (N + i) y 0).
    change (nth i (vzip Rplus (field_slice N 0 y) (field_slice N 1 y)) 0
            = nth i (map g (seq 0 N)) 0).
    rewrite nth_indep with (l := map g (seq 0 N)) (d' := g 0%nat)
      by (rewrite length_map, length_seq; exact Hi).
    rewrite map_nth, seq_nth by exact Hi.
    rewrite nth_vzip by congruence.
    rewrite !nth_field_slice by exact Hi. unfold g.
    f_equal; f_equal; lia.
Qed.

(** C5: on a state vector of [5 N] entries ([N > 0]), [zeros] is the
    minimum of the vector, [zeros_CA] and [zeros_CC] the minima of the CA
    and CC blocks, [ones_CA_plus_CC] is [max(CA + CC) - 1], [ones_Phi] is
    [max(Phi) - 1], and [zeros_U] and [zeros_W] are the minimum of [U] and
    the maximum of [W] as [fun] computes them. With one negative CA entry and
    every other entry positive, [zeros < 0], [zeros_CA < 0] and
    [zeros_CC >= 0]. *)
Theorem event_functions (m : Model) (y : list R)
  (Hy : length y = (5 * no_depths m)%nat) (HN : (0 < no_depths m)%nat) :
  let N := no_depths m in
  (exists v, zeros m y = Some v /\ is_min v y) /\
  (exists v, zeros_CA m y = Some v /\ is_min v (field_slice N 0 y)) /\
  (exists v, zeros_CC m y = Some v /\ is_min v (field_slice N 1 y)) /\
  (exists v, ones_CA_plus_CC m y = Some (v - 1) /\
             is_max v (map (fun i => nth i y 0 + nth (N + i) y 0) (seq 0 N))) /\
  (exists v, ones_Phi m y = Some (v - 1) /\ is_max v (field_slice N 4 y)) /\
  (exists v, zeros_U m y = Some v /\ is_min v (map (fl_U (fun_locals m y)) (seq 0 N))) /\
  (exists v, zeros_W m y = Some v /\ is_max v (map (fl_W (fun_locals m y)) (seq 0 N))) /\
  (forall k, (k < N)%nat -> nth k y 0 < 0 ->
     (forall j, (j < 5 * N)%nat -> j <> k -> 0 < nth j y 0) ->
     exists a b c, zeros m y = Some a /\ a < 0 /\ zeros_CA m y = Some b /\ b < 0 /\
                   zeros_CC m y = Some c /\ 0 <= c).
Proof.
  intros N.
  assert (Hne : forall f, (f < 5)%nat -> field_slice N f y <> []).
  { intros f Hf. apply (nonempty_length _ N); [apply length_field_slice; assumption | exact HN]. }
  assert (Hseq : forall g : nat -> R, map g (seq 0 N) <> []).
  { intros g. apply (nonempty_length _ N); [rewrite length_map, length_seq; reflexivity | exact HN]. }
  assert (Z : exists v, zeros m y = Some v /\ is_min v y).
  { apply amin_spec. apply (nonempty_length _ (5 * N)); [exact Hy | lia]. }
  assert (ZA : exists v, zeros_CA m y = Some v /\ is_min v (field_slice N 0 y)).
  { apply amin_spec, Hne. lia. }
  assert (ZC : exists v, zeros_CC m y = Some v /\ is_min v (field_slice N 1 y)).
  { apply amin_spec, Hne. lia. }
  split; [exact Z|]. split; [exact ZA|]. split; [exact ZC|]. split; [|split; [|split; [|split]]].
  - pose proof (CA_plus_CC_list m y Hy) as E. cbv zeta in E.
    unfold ones_CA_plus_CC. cbv zeta. rewrite E. fold N.
    destruct (amax_spec _ (Hseq (fun i => nth i y 0 + nth (N + i) y 0))) as [v [Ev Hv]].
    exists v. rewrite Ev. split; [reflexivity | exact Hv].
  - unfold ones_Phi. cbv zeta. fold N.
    destruct (amax_spec _ (Hne 4%nat ltac:(lia))) as [v [Ev Hv]].
    exists v. rewrite Ev. split; [reflexivity | exact Hv].
  - pose proof (zeros_U_list m y Hy) as E. cbv zeta in E.
    unfold zeros_U. cbv zeta. rewrite E. fold N. apply amin_spec, Hseq.
  - pose proof (zeros_W_list m y Hy) as E. cbv zeta in E.
    unfold zeros_W. cbv zeta. rewrite E. fold N. apply amax_spec, Hseq.
  - intros k Hk Hneg Hpos.
    destruct Z as [a [Ea [_ Ha]]]. destruct ZA as [b [Eb [_ Hb]]].
    destruct ZC as [c [Ec [Hc _]]].
    exists a, b, c. split; [exact Ea|]. split.
    { apply (Rle_lt_trans _ (nth k y 0)); [|exact Hneg].
      apply Ha, nth_In. lia. }
    split; [exact Eb|]. split.
    { apply (Rle_lt_trans _ (nth k y 0)); [|exact Hneg].
      replace (nth k y 0) with (nth k (field_slice N 0 y) 0)
        by (rewrite nth_field_slice by exact Hk; reflexivity).
      apply Hb, nth_In. rewrite length_field_slice by (lia || exact Hy). exact Hk. }
    split; [exact Ec|].
    destruct (In_field_slice N 1 y c ltac:(lia) Hy Hc) as [j [Hj ->]].
    apply Rlt_le, Hpos; lia.
Qed.

Lemma event_functions_witness :
  (length example_state = (5 * no_depths example_model)%nat /\
   (0 < no_depths example_model)%nat) /\
  let N := no_depths example_model in
  (exists v, zeros example_model example_state = Some v /\ is_min v example_state) /\
  (exists v, zeros_CA example_model example_state = Some v /\ is_min v (field_slice N 0 example_state)) /\
  (exists v, zeros_CC example_model example_state = Some v /\ is_min v (field_slice N 1 example_state)) /\
  (exists v, ones_CA_plus_CC example_model example_state = Some (v - 1) /\
             is_max v (map (fun i => nth i example_state 0 + nth (N + i) example_state 0) (seq 0 N))) /\
  (exists v, ones_Phi example_model example_state = Some (v - 1) /\ is_max v (field_slice N 4 example_state)) /\
  (exists v, zeros_U example_model example_state = Some v /\ is_min v (map (fl_U (fun_locals example_model example_state)) (seq 0 N))) /\
  (exists v, zeros_W example_model example_state = Some v /\ is_max v (map (fl_W (fun_locals example_model example_state)) (seq 0 N))) /\
  (forall k, (k < N)%nat -> nth k example_state 0 < 0 ->
     (forall j, (j < 5 * N)%nat -> j <> k -> 0 < nth j example_state 0) ->
     exists a b c, zeros example_model example_state = Some a /\ a < 0 /\ zeros_CA example_model example_state = Some b /\ b < 0 /\
                   zeros_CC example_model example_state = Some c /\ 0 <= c).
Proof.
  assert (Hy : length example_state = (5 * no_depths example_model)%nat) by reflexivity.
  assert (HN : (0 < no_depths example_model)%nat) by (simpl; lia).
  split; [split; [exact Hy | exact HN]|].
  exact (event_functions example_model example_state Hy HN).
Defined.

(** ** The sign of the Fiadeiro-Veronis weight *)

Lemma x_cosh_gt_sinh (x : R) : 0 < x -> sinh x < x * cosh x.
Proof.
  intros Hx.
  destruct (MVT_cor2 (fun t => t * cosh t - sinh t) (fun t => t * sinh t) 0 x Hx)
    as [c [Ec Hc]].
  { intros c _.
    replace (c * sinh c) with ((1 * cosh c + c * sinh c) - cosh c) by ring.
    apply (derivable_pt_lim_minus (fun t => t * cosh t) sinh).
    - apply (derivable_pt_lim_mult id cosh);
        [apply derivable_pt_lim_id | apply derivable_pt_lim_cosh].
    - apply derivable_pt_lim_sinh. }
  rewrite sinh_0 in Ec.
  assert (0 < sinh c) by (rewrite <- sinh_0; apply sinh_lt; lra).
  assert (0 < c * sinh c * (x - 0)) by (apply Rmult_lt_0_compat; [nra | lra]).
  lra.
Qed.

Lemma coth_minus_inv_pos_strict (x : R) : 0 < x -> 0 < cosh x / sinh x - 1 / x.
Proof.
  intros Hx. pose proof (x_cosh_gt_sinh x Hx) as H.
  assert (Hs : 0 < sinh x) by (rewrite <- sinh_0; apply sinh_lt; lra).
  replace (cosh x / sinh x - 1 / x) with ((x * cosh x - sinh x) / (x * sinh x))
    by (field; lra).
  apply Rdiv_lt_0_compat; nra.
Qed.

Lemma sigma_at_sign (Pe W Pmin Pmax : R) :
  0 < Pmin -> 0 <= Pe * W -> 0 <= sigma_at Pe W Pmin Pmax * W.
Proof.
  intros Hp HPW. unfold sigma_at.
  destruct Rlt_dec; [lra|]. destruct Rlt_dec.
  - unfold np_sign. repeat destruct Rlt_dec; nra.
  - assert (Pe <> 0) by (intro E; subst; rewrite Rabs_R0 in *; lra).
    destruct (Rlt_or_le 0 Pe) as [Hpos|Hneg].
    + pose proof (coth_minus_inv_pos_strict Pe Hpos). nra.
    + assert (Hpos : 0 < - Pe) by lra.
      pose proof (coth_minus_inv_pos_strict (- Pe) Hpos) as Hc.
      rewrite coth_minus_inv_odd in Hc. nra.
Qed.

Lemma F_pos (P : R) : 0 < P < 1 -> 0 < 1 - exp (10 - 10 / P).
Proof.
  intros HP.
  assert (10 < 10 / P).
  { apply (Rmult_lt_reg_r P); [lra|]. unfold Rdiv. rewrite Rmult_assoc, Rinv_l by lra. nra. }
  assert (exp (10 - 10 / P) < exp 0) by (apply exp_increasing; lra).
  rewrite exp_0 in H0. lra.
Qed.

Lemma denominator_pos (P : R) : 0 < P < 1 -> 1 < 1 - 2 * ln P.
Proof.
  intros HP. assert (ln P < 0) by (rewrite <- ln_1; apply ln_increasing; lra).
  lra.
Qed.

Lemma sq_prod_nonneg (W a : R) : 0 < a -> 0 <= W * a * W.
Proof. intros. nra. Qed.

(** With positive grid spacing, diffusivities and [auxcon], a positive
    [Peclet_min] and a porosity strictly between 0 and 1, each of the three
    weights [pde_rhs] computes at a cell has the sign of the velocity [W]
    there (or is 0): [sigma * W >= 0]. *)
Theorem pde_rhs_sigma_upwind (m : Model) (CA CC cCa cCO3 Phi CA_gb CC_gb cCa_gb cCa_gf
    cCa_lap cCO3_gb cCO3_gf cCO3_lap Phi_gb Phi_gf Phi_lap : arr) (dx : R) (i : nat)
  (Hdx : 0 < dx) (HdCa : 0 < dCa m) (HdCO3 : 0 < dCO3 m)
  (Haux : 0 < auxcon m) (Hmin : 0 < Peclet_min m) (HPhi : 0 < Phi i < 1) :
  let c := pde_rhs_cell m CA CC cCa cCO3 Phi CA_gb CC_gb cCa_gb cCa_gf cCa_lap
             cCO3_gb cCO3_gf cCO3_lap Phi_gb Phi_gf Phi_lap dx i in
  0 <= c_sigma_cCa c * c_W c /\ 0 <= c_sigma_cCO3 c * c_W c /\
  0 <= c_sigma_Phi c * c_W c.
Proof.
  intros c. unfold c, pde_rhs_cell.
  cbv beta iota zeta delta [c_sigma_cCa c_sigma_cCO3 c_sigma_Phi c_W].
  set (P := Phi i) in *.
  set (W := presum m - rhorat m * P ^ 2 * (1 - exp (10 - 10 / P))).
  pose proof (denominator_pos P HPhi). pose proof (F_pos P HPhi).
  repeat split; apply (sigma_at_sign _ _ (Peclet_min m) (Peclet_max m) Hmin).
  - replace (W * dx * (1 - 2 * ln P) / (2 * dCa m) * W)
      with (W * (dx * (1 - 2 * ln P) / (2 * dCa m)) * W) by (field; lra).
    apply sq_prod_nonneg. apply Rdiv_lt_0_compat; nra.
  - replace (W * dx * (1 - 2 * ln P) / (2 * dCO3 m) * W)
      with (W * (dx * (1 - 2 * ln P) / (2 * dCO3 m)) * W) by (field; lra).
    apply sq_prod_nonneg. apply Rdiv_lt_0_compat; nra.
  - assert (0 < auxcon m * (1 - exp (10 - 10 / P)) * P ^ 3 / (1 - P)).
    { apply Rdiv_lt_0_compat; [|lra]. apply Rmult_lt_0_compat; [nra|]. apply pow_lt. lra. }
    set (D := auxcon m * (1 - exp (10 - 10 / P)) * P ^ 3 / (1 - P)) in *.
    replace (W * dx / (2 * D) * W) with (W * (dx / (2 * D)) * W) by (field; lra).
    apply sq_prod_nonneg. apply Rdiv_lt_0_compat; lra.
Qed.

Lemma pde_rhs_sigma_upwind_witness :
  (0 < 1 / 2 /\ 0 < dCa example_model /\ 0 < dCO3 example_model /\
   0 < auxcon example_model /\ 0 < Peclet_min example_model /\ 0 < cst (1 / 2) 0%nat < 1) /\
  let c := pde_rhs_cell example_model (cst 0) (cst 0) (cst 1) (cst 1) (cst (1 / 2))
             (cst 0) (cst 0) (cst 0) (cst 0) (cst 0) (cst 0) (cst 0) (cst 0)
             (cst 0) (cst 0) (cst 0) (1 / 2) 0%nat in
  0 <= c_sigma_cCa c * c_W c /\ 0 <= c_sigma_cCO3 c * c_W c /\
  0 <= c_sigma_Phi c * c_W c.
Proof.
  assert (H1 : 0 < 1 / 2) by lra.
  assert (H2 : 0 < dCa example_model) by (simpl; lra).
  assert (H3 : 0 < dCO3 example_model) by (simpl; lra).
  assert (H4 : 0 < auxcon example_model) by (simpl; lra).
  assert (H5 : 0 < Peclet_min example_model) by (simpl; lra).
  assert (H6 : 0 < cst (1 / 2) 0%nat < 1) by (unfold cst; lra).
  split; [tauto|].
  exact (pde_rhs_sigma_upwind example_model (cst 0) (cst 0) (cst 1) (cst 1) (cst (1 / 2))
           (cst 0) (cst 0) (cst 0) (cst 0) (cst 0) (cst 0) (cst 0) (cst 0)
           (cst 0) (cst 0) (cst 0) (1 / 2) 0%nat H1 H2 H3 H4 H5 H6).
Defined.

(** The same for the three weights [fun] computes with [calculate_sigma]
    at a cell [i < N] whose porosity lies strictly between 0 and 1. *)
Theorem fun_sigma_upwind (m : Model) (y : list R) (i : nat)
  (Hdx : 0 < delta_x m) (HdCa : 0 < dCa m) (HdCO3 : 0 < dCO3 m)
  (Haux : 0 < auxcon m) (Hmin : 0 < Peclet_min m)
  (HPhi : 0 < nth (4 * no_depths m + i) y 0 < 1) (Hi : (i < no_depths m)%nat) :
  let L := fun_locals m y in
  0 <= fl_sigma_cCa L i * fl_W L i /\ 0 <= fl_sigma_cCO3 L i * fl_W L i /\
  0 <= fl_sigma_Phi L i * fl_W L i.
Proof.
  intros L.
  set (P := to_arr (field_slice (no_depths m) 4 y) i).
  assert (HP : 0 < P < 1).
  { unfold P, to_arr. rewrite nth_field_slice by exact Hi. exact HPhi. }
  unfold L, fun_locals.
  cbv beta iota zeta delta [fl_sigma_cCa fl_sigma_cCO3 fl_sigma_Phi fl_W calculate_sigma
    lift2 cst amap].
  fold P.
  set (W := presum m - rhorat m * P ^ 2 * (1 - exp (10 - 10 / P))).
  pose proof (denominator_pos P HP). pose proof (F_pos P HP).
  repeat split; apply sigma_at_sign; try exact Hmin.
  - replace (W * delta_x m / 2 * (1 - 2 * ln P) / dCa m * W)
      with (W * (delta_x m * (1 - 2 * ln P) / (2 * dCa m)) * W) by (field; lra).
    apply sq_prod_nonneg. apply Rdiv_lt_0_compat; nra.
  - replace (W * delta_x m / 2 * (1 - 2 * ln P) / dCO3 m * W)
      with (W * (delta_x m * (1 - 2 * ln P) / (2 * dCO3 m)) * W) by (field; lra).
    apply sq_prod_nonneg. apply Rdiv_lt_0_compat; nra.
  - assert (0 < auxcon m * (1 - exp (10 - 10 / P)) * P ^ 3 / (1 - P)).
    { apply Rdiv_lt_0_compat; [|lra]. apply Rmult_lt_0_compat; [nra|]. apply pow_lt. lra. }
    set (D := auxcon m * (1 - exp (10 - 10 / P)) * P ^ 3 / (1 - P)) in *.
    replace (W * delta_x m / 2 / D * W) with (W * (delta_x m / (2 * D)) * W) by (field; lra).
    apply sq_prod_nonneg. apply Rdiv_lt_0_compat; lra.
Qed.

Lemma fun_sigma_upwind_witness :
  (0 < delta_x example_model /\ 0 < dCa example_model /\ 0 < dCO3 example_model /\
   0 < auxcon example_model /\ 0 < Peclet_min example_model /\
   0 < nth (4 * no_depths example_model + 1) example_state 0 < 1 /\
   (1 < no_depths example_model)%nat) /\
  let L := fun_locals example_model example_state in
  0 <= fl_sigma_cCa L 1%nat * fl_W L 1%nat /\ 0 <= fl_sigma_cCO3 L 1%nat * fl_W L 1%nat /\
  0 <= fl_sigma_Phi L 1%nat * fl_W L 1%nat.
Proof.
  assert (H1 : 0 < delta_x example_model) by (simpl; lra).
  assert (H2 : 0 < dCa example_model) by (simpl; lra).
  assert (H3 : 0 < dCO3 example_model) by (simpl; lra).
  assert (H4 : 0 < auxcon example_model) by (simpl; lra).
  assert (H5 : 0 < Peclet_min example_model) by (simpl; lra).
  assert (H6 : 0 < nth (4 * no_depths example_model + 1) example_state 0 < 1) by (simpl; lra).
  assert (H7 : (1 < no_depths example_model)%nat) by (simpl; lia).
  split; [tauto|].
  exact (fun_sigma_upwind example_model example_state 1%nat H1 H2 H3 H4 H5 H6 H7).
Defined.

(** Reversing the sign of the Peclet numbers and of the velocities reverses
    the sign of every weight [calculate_sigma] returns. *)
Theorem calculate_sigma_odd (Peclet W_data : arr) (Peclet_min Peclet_max : R) (i : nat) :
  calculate_sigma (fun k => - Peclet k) (fun k => - W_data k) Peclet_min Peclet_max i
  = - calculate_sigma Peclet W_data Peclet_min Peclet_max i.
Proof.
  unfold calculate_sigma, sigma_at. rewrite Rabs_Ropp.
  destruct Rlt_dec; [ring|]. destruct Rlt_dec.
  - unfold np_sign. repeat destruct Rlt_dec; lra.
  - apply coth_minus_inv_odd.
Qed.

(** ** The progress counter over a run of [ScenarioA.py] *)

Lemma progress_update_t0_zero (st : Progress) (t dt : R) :
  progress_update st t dt 0 =
  {| last_t := last_t st + IZR (py_int ((t - last_t st) / dt)) * dt;
     pbar_n := (pbar_n st + py_int ((t - last_t st) / dt))%Z |}.
Proof.
  unfold progress_update. destruct (Req_dec_T (last_t st) 0) as [E|E]; [|reflexivity].
  rewrite E. reflexivity.
Qed.

Lemma run_fun_numba_ticks (m : Model) (calls : list (R * list R)) (dt : R) (st : Progress) :
  last_t st = IZR (pbar_n st) * dt ->
  last_t (run_fun_numba m st calls dt 0) = IZR (pbar_n (run_fun_numba m st calls dt 0)) * dt.
Proof.
  revert st. induction calls as [|c calls IH]; intros st H; [exact H|].
  unfold run_fun_numba. cbn [fold_left]. apply IH.
  unfold fun_numba. cbn [fst]. rewrite progress_update_t0_zero. cbn [last_t pbar_n].
  rewrite plus_IZR, H. ring.
Qed.

(** With [t0 = 0] as in [ScenarioA.py], whatever times and states the
    solver calls [fun_numba] with, [last_t] stays equal to
    [pbar.n * progress_dt]; so on a failed run ([status <> 0]) the
    [covered_time] the script reports is [Tstar * last_t]. *)
Theorem progress_run_ticks (m : Model) (calls : list (R * list R))
    (status : Z) (Tstar end_time K : R) :
  let dt := (end_time - 0) / K in
  let st := run_fun_numba m {| last_t := 0; pbar_n := 0 |} calls dt 0 in
  last_t st = IZR (pbar_n st) * dt /\
  covered_time status Tstar end_time (pbar_n st) K
  = (if Z.eqb status 0 then Tstar * end_time else Tstar * last_t st).
Proof.
  intros dt st.
  assert (H : last_t st = IZR (pbar_n st) * dt).
  { apply run_fun_numba_ticks. simpl. ring. }
  split; [exact H|]. unfold covered_time. destruct (Z.eqb status 0); [reflexivity|].
  rewrite H. unfold dt, Rdiv. ring.
Qed.

Lemma Int_part_unique (x : R) (z : Z) : IZR z <= x < IZR z + 1 -> Int_part x = z.
Proof.
  intros Hx. unfold Int_part.
  rewrite <- (tech_up x (z + 1)); [ring | |]; rewrite plus_IZR; simpl; lra.
Qed.

Lemma progress_step_bounds (st : Progress) (t dt : R) :
  0 < dt -> last_t st <= t ->
  let st' := progress_update st t dt 0 in
  last_t st' <= t < last_t st' + dt /\ (pbar_n st <= pbar_n st')%Z.
Proof.
  intros Hdt Ht st'. unfold st'. rewrite progress_update_t0_zero. cbn [last_t pbar_n].
  set (x := (t - last_t st) / dt).
  assert (Hx : 0 <= x).
  { unfold x, Rdiv. apply Rmult_le_pos; [lra | left; apply Rinv_0_lt_compat; lra]. }
  unfold py_int. destruct (Rle_dec 0 x) as [_|]; [|lra].
  destruct (base_Int_part x) as [B1 B2].
  pose proof (Int_part_nonneg x Hx).
  assert (Ex : t - last_t st = x * dt) by (unfold x; field; lra).
  split; [|lia].
  split; nra.
Qed.

Lemma run_fun_numba_bounds (m : Model) (calls : list (R * list R)) (dt : R) (st : Progress) :
  0 < dt -> StronglySorted Rle (map fst calls) ->
  Forall (fun c => last_t st <= fst c) calls ->
  let st' := run_fun_numba m st calls dt 0 in
  (pbar_n st <= pbar_n st')%Z /\
  (calls <> [] -> last_t st' <= last (map fst calls) 0 < last_t st' + dt).
Proof.
  revert st. induction calls as [|c calls IH]; intros st Hdt Hs Hf st'.
  - split; [unfold st'; simpl; lia | congruence].
  - inversion Hs as [|t ts Hs' Hall]; subst.
    inversion Hf as [|c' cs Hc Hf']; subst.
    destruct (progress_step_bounds st (fst c) dt Hdt Hc) as [[B1 B2] B3].
    set (st1 := progress_update st (fst c) dt 0) in *.
    assert (Hf1 : Forall (fun c0 => last_t st1 <= fst c0) calls).
    { apply Forall_forall. intros c0 Hc0.
      assert (fst c <= fst c0).
      { rewrite Forall_forall in Hall. apply Hall, in_map, Hc0. }
      lra. }
    destruct (IH st1 Hdt Hs' Hf1) as [I1 I2].
    unfold st'. unfold run_fun_numba at 1. cbn [fold_left].
    change (fst (fun_numba m st (fst c) (snd c) dt 0)) with st1.
    fold (run_fun_numba m st1 calls dt 0).
    split; [lia|]. intros _.
    destruct calls as [|c2 calls'].
    + cbn [map last]. unfold run_fun_numba; cbn [fold_left].
      change (fst (fun_numba m st (fst c) (snd c) dt 0)) with st1. lra.
    + apply I2. congruence.
Qed.

(** When the solver calls [fun_numba] at non-negative, non-decreasing times
    (a run without step rejections), [pbar.n] ends at
    [int(t_last / progress_dt)] for the last time [t_last], [last_t] lies
    within one [progress_dt] below [t_last], and the [covered_time] of a
    failed run lies in [(Tstar * (t_last - progress_dt), Tstar * t_last]]. *)
Theorem progress_run_monotone (m : Model) (calls : list (R * list R))
    (status : Z) (Tstar end_time K : R)
    (Hdt : 0 < (end_time - 0) / K) (Hne : calls <> [])
    (Hsorted : Sorted Rle (map fst calls)) (Hpos : Forall (fun c => 0 <= fst c) calls) :
  let dt := (end_time - 0) / K in
  let st := run_fun_numba m {| last_t := 0; pbar_n := 0 |} calls dt 0 in
  let t_last := last (map fst calls) 0 in
  pbar_n st = py_int (t_last / dt) /\
  last_t st <= t_last < last_t st + dt /\
  (0 < Tstar -> status <> 0%Z ->
   Tstar * (t_last - dt) < covered_time status Tstar end_time (pbar_n st) K <= Tstar * t_last).
Proof.
  intros dt st t_last.
  assert (Hss : StronglySorted Rle (map fst calls)).
  { apply Sorted_StronglySorted; [intros a b c; apply Rle_trans | exact Hsorted]. }
  destruct (run_fun_numba_bounds m calls dt {| last_t := 0; pbar_n := 0 |} Hdt Hss Hpos)
    as [Hn Hb].
  fold st in Hn, Hb. specialize (Hb Hne). fold t_last in Hb. cbn [pbar_n] in Hn.
  assert (Ht : last_t st = IZR (pbar_n st) * dt).
  { apply run_fun_numba_ticks. simpl. ring. }
  assert (Hz : 0 <= IZR (pbar_n st)) by (apply IZR_le; lia).
  assert (Hq : IZR (pbar_n st) <= t_last / dt < IZR (pbar_n st) + 1).
  { split.
    - apply (Rmult_le_reg_r dt); [exact Hdt|].
      replace (t_last / dt * dt) with t_last by (field; lra). lra.
    - apply (Rmult_lt_reg_r dt); [exact Hdt|].
      replace (t_last / dt * dt) with t_last by (field; lra). lra. }
  split; [|split; [exact Hb|]].
  - unfold py_int. destruct (Rle_dec 0 (t_last / dt)) as [_|]; [|lra].
    symmetry. apply Int_part_unique. exact Hq.
  - intros HT Hst. unfold covered_time.
    destruct (Z.eqb_spec status 0) as [|_]; [contradiction|].
    replace (IZR (pbar_n st) * Tstar * end_time / K) with (Tstar * last_t st)
      by (rewrite Ht; unfold dt, Rdiv; ring).
    split; apply Rmult_lt_compat_l || apply Rmult_le_compat_l; lra.
Qed.

Lemma progress_run_monotone_witness :
  (0 < (10 - 0) / 10 /\ [(1 / 2, @nil R); (3, @nil R)] <> ([] : list (R * list R)) /\
   Sorted Rle (map fst [(1 / 2, @nil R); (3, @nil R)]) /\
   Forall (fun c => 0 <= fst c) [(1 / 2, @nil R); (3, @nil R)]) /\
  let calls := [(1 / 2, @nil R); (3, @nil R)] in
  let dt := (10 - 0) / 10 in
  let st := run_fun_numba example_model {| last_t := 0; pbar_n := 0 |} calls dt 0 in
  let t_last := last (map fst calls) 0 in
  pbar_n st = py_int (t_last / dt) /\
  last_t st <= t_last < last_t st + dt /\
  (0 < 1 -> 1%Z <> 0%Z ->
   1 * (t_last - dt) < covered_time 1 1 10 (pbar_n st) 10 <= 1 * t_last).
Proof.
  assert (H1 : 0 < (10 - 0) / 10) by lra.
  assert (H2 : [(1 / 2, @nil R); (3, @nil R)] <> ([] : list (R * list R))) by discriminate.
  assert (H3 : Sorted Rle (map fst [(1 / 2, @nil R); (3, @nil R)])).
  { simpl. repeat constructor; lra. }
  assert (H4 : Forall (fun c => 0 <= fst c) [(1 / 2, @nil R); (3, @nil R)]).
  { repeat constructor; simpl; lra. }
  split; [tauto|].
  exact (progress_run_monotone example_model [(1 / 2, @nil R); (3, @nil R)] 1 1 10 10 H1 H2 H3 H4).
Defined.

(** ** The shape and the number of entries of the sparsity pattern *)

Lemma In_jacobian_sparsity (N r c : nat) :
  In (r, c) (jacobian_sparsity N) ->
  exists i j k, (i < no_fields)%nat /\ (j < no_fields)%nat /\ (k < N)%nat /\
    r = (i * N + k)%nat /\ c = (j * N + k)%nat.
Proof.
  unfold jacobian_sparsity. rewrite in_flat_map. intros [i [Hi Hin]].
  rewrite in_flat_map in Hin. destruct Hin as [j [Hj Hin]].
  apply in_seq in Hi, Hj.
  destruct (Nat.ltb i (no_fields - 1) || Nat.ltb 1 j)%bool; [|contradiction].
  unfold block_coo in Hin. apply in_map_iff in Hin as [k [E Hk]]. apply in_seq in Hk.
  injection E as E1 E2. exists i, j, k. repeat split; lia.
Qed.



Lemma length_block_coo (N i j : nat) : length (block_coo N i j) = N.
Proof. unfold block_coo. rewrite length_map, length_seq. reflexivity. Qed.

(** The 23 blocks each add [N] coordinates and no coordinate is added
    twice: the summed matrix has [23 N] stored entries. *)
Theorem jacobian_sparsity_nnz (N : nat) :
  length (jacobian_sparsity N) = (23 * N)%nat /\ NoDup (jacobian_sparsity N).
Proof.
  split.
  - unfold jacobian_sparsity, no_fields. simpl.
    rewrite !length_app, !length_block_coo. simpl. lia.
  - apply (NoDup_count_occ pair_eq_dec). intros [r c].
    destruct (In_dec pair_eq_dec (r, c) (jacobian_sparsity N)) as [Hin|Hin].
    2: { rewrite (proj1 (count_occ_not_In pair_eq_dec _ _) Hin). lia. }
    destruct (In_jacobian_sparsity N r c Hin) as (bi & bj & a & Hbi & Hbj & Ha & -> & ->).
    unfold jacobian_sparsity. rewrite count_occ_flat_map.
    rewrite (map_ext _ (fun i => list_sum (map (fun j =>
               if (Nat.ltb i (no_fields - 1) || Nat.ltb 1 j)%bool
               then (if (Nat.eqb i bi && Nat.eqb j bj && Nat.eqb a a)%bool then 1 else 0)
               else 0) (seq 0 no_fields)))%nat).
    2: { intros i. rewrite count_occ_flat_map. f_equal. apply map_ext. intros j.
         destruct (Nat.ltb i (no_fields - 1) || Nat.ltb 1 j)%bool.
         - now apply count_block.
         - reflexivity. }
    rewrite Nat.eqb_refl.
    unfold no_fields in *;
    destruct bi as [|[|[|[|[|bi]]]]]; try lia;
      destruct bj as [|[|[|[|[|bj]]]]]; try lia; simpl; lia.
Qed.

(** ** Velocities, reaction terms and events *)

Lemma fl_U_at (m : Model) (y : list R) (j : nat) (Hj : (j < no_depths m)%nat) :
  let P := nth (4 * no_depths m + j) y 0 in
  fl_U (fun_locals m y) j = presum m + rhorat m * P ^ 3 * (1 - exp (10 - 10 / P)) / (1 - P) /\
  fl_W (fun_locals m y) j = presum m - rhorat m * P ^ 2 * (1 - exp (10 - 10 / P)).
Proof.
  intros P. unfold fun_locals. cbv beta iota zeta delta [fl_U fl_W lift2 cst amap].
  unfold to_arr. rewrite !nth_field_slice by exact Hj. fold P.
  cbv beta iota zeta delta [pow]. split; ring.
Qed.

(** At a cell of porosity [Phi] in [(0, 1)], the solid and pore-water
    velocities of [fun] satisfy [(1 - Phi) * U + Phi * W = presum]. *)
Theorem fun_flux_balance (m : Model) (y : list R) (i : nat)
  (HPhi : 0 < nth (4 * no_depths m + i) y 0 < 1) (Hi : (i < no_depths m)%nat) :
  let L := fun_locals m y in
  (1 - fl_Phi L i) * fl_U L i + fl_Phi L i * fl_W L i = presum m.
Proof.
  intros L. destruct (fl_U_at m y i Hi) as [EU EW]. cbv zeta in EU, EW.
  unfold L. rewrite EU, EW.
  change (fl_Phi (fun_locals m y) i) with (to_arr (field_slice (no_depths m) 4 y) i).
  unfold to_arr. rewrite nth_field_slice by exact Hi.
  set (P := nth (4 * no_depths m + i) y 0) in *.
  field. lra.
Qed.

Lemma fun_flux_balance_witness :
  (0 < nth (4 * no_depths example_model + 0) example_state 0 < 1 /\
   (0 < no_depths example_model)%nat) /\
  let L := fun_locals example_model example_state in
  (1 - fl_Phi L 0%nat) * fl_U L 0%nat + fl_Phi L 0%nat * fl_W L 0%nat = presum example_model.
Proof.
  assert (H1 : 0 < nth (4 * no_depths example_model + 0) example_state 0 < 1) by (simpl; lra).
  assert (H2 : (0 < no_depths example_model)%nat) by (simpl; lia).
  split; [split; assumption|].
  exact (fun_flux_balance example_model example_state 0 H1 H2).
Defined.

(** The same balance for the cell values [U[i]] and [W[i]] of [pde_rhs]. *)
Theorem pde_rhs_flux_balance (m : Model) (CA CC cCa cCO3 Phi CA_gb CC_gb cCa_gb cCa_gf
    cCa_lap cCO3_gb cCO3_gf cCO3_lap Phi_gb Phi_gf Phi_lap : arr) (dx : R) (i : nat)
  (HPhi : 0 < Phi i < 1) :
  let c := pde_rhs_cell m CA CC cCa cCO3 Phi CA_gb CC_gb cCa_gb cCa_gf cCa_lap
             cCO3_gb cCO3_gf cCO3_lap Phi_gb Phi_gf Phi_lap dx i in
  (1 - Phi i) * c_U c + Phi i * c_W c = presum m.
Proof.
  intros c. unfold c, pde_rhs_cell. cbv beta iota zeta delta [c_U c_W].
  field. lra.
Qed.

Lemma pde_rhs_flux_balance_witness :
  0 < cst (1 / 2) 0%nat < 1 /\
  let c := pde_rhs_cell example_model (cst 0) (cst 0) (cst 1) (cst 1) (cst (1 / 2))
             (cst 0) (cst 0) (cst 0) (cst 0) (cst 0) (cst 0) (cst 0) (cst 0)
             (cst 0) (cst 0) (cst 0) (1 / 2) 0%nat in
  (1 - cst (1 / 2) 0%nat) * c_U c + cst (1 / 2) 0%nat * c_W c = presum example_model.
Proof.
  assert (H : 0 < cst (1 / 2) 0%nat < 1) by (unfold cst; lra).
  split; [exact H|].
  exact (pde_rhs_flux_balance example_model (cst 0) (cst 0) (cst 1) (cst 1) (cst (1 / 2))
           (cst 0) (cst 0) (cst 0) (cst 0) (cst 0) (cst 0) (cst 0) (cst 0)
           (cst 0) (cst 0) (cst 0) (1 / 2) 0%nat H).
Defined.

Lemma npow_nonneg (x e : R) : 0 <= x -> 0 <= npow x e.
Proof.
  intros Hx. unfold npow. destruct Req_dec_T; [destruct Req_dec_T; lra|].
  unfold Rpower. left. apply exp_pos.
Qed.

(** With positive reaction orders, non-negative [nu1], [nu2], CA, CC and
    depth masks, the aragonite term [coA] of [fun] is [>= 0] when
    [cCa * cCO3 * KRat <= 1] and [<= 0] when it is [>= 1]; the calcite term
    [coC] is [>= 0] when [cCa * cCO3 >= 1] and [<= 0] when it is [<= 1]. *)
Theorem fun_reaction_signs (m : Model) (y : list R) (i : nat) (Hi : (i < no_depths m)%nat)
  (Hm1 : 0 < m1 m) (Hm2 : 0 < m2 m) (Hn1 : 0 < n1 m) (Hn2 : 0 < n2 m)
  (Hnu1 : 0 <= nu1 m) (Hnu2 : 0 <= nu2 m)
  (HCA : 0 <= nth i y 0) (HCC : 0 <= nth (no_depths m + i) y 0)
  (Hdeep : 0 <= not_too_deep m i) (Hshallow : 0 <= not_too_shallow m i) :
  let L := fun_locals m y in
  let cCa := nth (2 * no_depths m + i) y 0 in
  let cCO3 := nth (3 * no_depths m + i) y 0 in
  (cCa * cCO3 * KRat m <= 1 -> 0 <= fl_coA L i) /\
  (1 <= cCa * cCO3 * KRat m -> fl_coA L i <= 0) /\
  (1 <= cCa * cCO3 -> 0 <= fl_coC L i) /\
  (cCa * cCO3 <= 1 -> fl_coC L i <= 0).
Proof.
  intros L cCa cCO3.
  unfold L, fun_locals. cbv beta iota zeta delta [fl_coA fl_coC lift2 cst amap].
  unfold to_arr. rewrite !nth_field_slice by exact Hi.
  replace (0 * no_depths m + i)%nat with i by lia.
  replace (1 * no_depths m + i)%nat with (no_depths m + i)%nat by lia.
  fold cCa cCO3.
  set (CA := nth i y 0) in *. set (CC := nth (no_depths m + i) y 0) in *.
  set (O := cCa * cCO3 * KRat m). set (Q := cCa * cCO3).
  assert (Hd : 0 <= not_too_deep m i * not_too_shallow m i) by (apply Rmult_le_pos; lra).
  repeat split; intros H.
  - rewrite Rmax_right by lra. replace (1 - 1) with 0 by ring. rewrite npow_zero_pos by lra.
    assert (0 <= npow (1 - Rmin O 1) (m2 m))
      by (apply npow_nonneg; pose proof (Rmin_r O 1); lra).
    apply Rmult_le_pos; [lra|]. nra.
  - rewrite Rmin_right by lra. replace (1 - 1) with 0 by ring. rewrite npow_zero_pos by lra.
    assert (0 <= npow (Rmax O 1 - 1) (m1 m))
      by (apply npow_nonneg; pose proof (Rmax_r O 1); lra).
    assert (0 <= nu1 m * npow (Rmax O 1 - 1) (m1 m)) by (apply Rmult_le_pos; lra).
    nra.
  - rewrite Rmin_right by lra. replace (1 - 1) with 0 by ring. rewrite npow_zero_pos by lra.
    assert (0 <= npow (Rmax Q 1 - 1) (n1 m))
      by (apply npow_nonneg; pose proof (Rmax_r Q 1); lra).
    apply Rmult_le_pos; lra.
  - rewrite Rmax_right by lra. replace (1 - 1) with 0 by ring. rewrite npow_zero_pos by lra.
    assert (0 <= npow (1 - Rmin Q 1) (n2 m))
      by (apply npow_nonneg; pose proof (Rmin_r Q 1); lra).
    assert (0 <= nu2 m * npow (1 - Rmin Q 1) (n2 m)) by (apply Rmult_le_pos; lra).
    nra.
Qed.

Lemma fun_reaction_signs_witness :
  ((1 < no_depths example_model)%nat /\
   0 < m1 example_model /\ 0 < m2 example_model /\ 0 < n1 example_model /\
   0 < n2 example_model /\ 0 <= nu1 example_model /\ 0 <= nu2 example_model /\
   0 <= nth 1 example_state 0 /\ 0 <= nth (no_depths example_model + 1) example_state 0 /\
   0 <= not_too_deep example_model 1%nat /\ 0 <= not_too_shallow example_model 1%nat) /\
  let L := fun_locals example_model example_state in
  let cCa := nth (2 * no_depths example_model + 1) example_state 0 in
  let cCO3 := nth (3 * no_depths example_model + 1) example_state 0 in
  (cCa * cCO3 * KRat example_model <= 1 -> 0 <= fl_coA L 1%nat) /\
  (1 <= cCa * cCO3 * KRat example_model -> fl_coA L 1%nat <= 0) /\
  (1 <= cCa * cCO3 -> 0 <= fl_coC L 1%nat) /\
  (cCa * cCO3 <= 1 -> fl_coC L 1%nat <= 0).
Proof.
  assert (H0 : (1 < no_depths example_model)%nat) by (simpl; lia).
  assert (H1 : 0 < m1 example_model) by (simpl; lra).
  assert (H2 : 0 < m2 example_model) by (simpl; lra).
  assert (H3 : 0 < n1 example_model) by (simpl; lra).
  assert (H4 : 0 < n2 example_model) by (simpl; lra).
  assert (H5 : 0 <= nu1 example_model) by (simpl; lra).
  assert (H6 : 0 <= nu2 example_model) by (simpl; lra).
  assert (H7 : 0 <= nth 1 example_state 0) by (simpl; lra).
  assert (H8 : 0 <= nth (no_depths example_model + 1) example_state 0) by (simpl; lra).
  assert (H9 : 0 <= not_too_deep example_model 1%nat) by (simpl; unfold cst; lra).
  assert (H10 : 0 <= not_too_shallow example_model 1%nat) by (simpl; unfold cst; lra).
  split; [tauto|].
  exact (fun_reaction_signs example_model example_state 1 H0 H1 H2 H3 H4 H5 H6 H7 H8 H9 H10).
Defined.

(** At every cell [i < N], the CA and CC rates of [fun] and of
    [fun_numba] add up to [-U * (grad CA + grad CC) + Da * (CA + CC - 1) *
    (coA - lambda * coC)]: where [CA + CC = 1] the reaction terms cancel. *)
Theorem carbonate_total_rate (m : Model) (y : list R) (i : nat) (Hi : (i < no_depths m)%nat) :
  let N := no_depths m in
  let L := fun_locals m y in
  let total := - fl_U L i * (fl_CA_grad L i + fl_CC_grad L i)
               + Da m * (fl_CA L i + fl_CC L i - 1) * (fl_coA L i - lambda_ m * fl_coC L i) in
  nth i (fun_rhs m y) 0 + nth (N + i) (fun_rhs m y) 0 = total /\
  nth i (fun_numba_rhs m y) 0 + nth (N + i) (fun_numba_rhs m y) 0 = total.
Proof.
  intros N L total.
  assert (H : nth i (fun_rhs m y) 0 + nth (N + i) (fun_rhs m y) 0 = total).
  { pose proof (nth_fun_rhs m y 0 i ltac:(lia) Hi) as H0.
    pose proof (nth_fun_rhs m y 1 i ltac:(lia) Hi) as H1.
    simpl in H0, H1. rewrite Nat.add_0_r in H1. fold N in H0, H1. rewrite H0, H1.
    unfold total, L, fun_locals.
    cbv beta iota zeta delta [fl_dCA_dt fl_dCC_dt fl_U fl_CA_grad fl_CC_grad fl_CA fl_CC
      fl_coA fl_coC lift2 cst amap aneg].
    unfold N. cbv beta iota delta [pow]. unfold Rdiv. ring. }
  split; [exact H|]. rewrite <- fun_rhs_fun_numba_rhs. exact H.
Qed.

Lemma carbonate_total_rate_witness :
  (1 < no_depths example_model)%nat /\
  let N := no_depths example_model in
  let L := fun_locals example_model example_state in
  let total := - fl_U L 1%nat * (fl_CA_grad L 1%nat + fl_CC_grad L 1%nat)
               + Da example_model * (fl_CA L 1%nat + fl_CC L 1%nat - 1)
                 * (fl_coA L 1%nat - lambda_ example_model * fl_coC L 1%nat) in
  nth 1 (fun_rhs example_model example_state) 0
  + nth (N + 1) (fun_rhs example_model example_state) 0 = total /\
  nth 1 (fun_numba_rhs example_model example_state) 0
  + nth (N + 1) (fun_numba_rhs example_model example_state) 0 = total.
Proof.
  assert (H : (1 < no_depths example_model)%nat) by (simpl; lia).
  split; [exact H|]. exact (carbonate_total_rate example_model example_state 1 H).
Defined.

(** On a state of [5 N] entries ([N > 0]) whose porosities lie in
    [(0, 1)], with [rhorat >= 0]: [zeros_U] returns a value [>= presum] and
    [zeros_W] a value [<= presum]; with [presum > 0] neither event can
    reach zero. *)
Theorem zeros_U_W_presum (m : Model) (y : list R)
  (Hy : length y = (5 * no_depths m)%nat) (HN : (0 < no_depths m)%nat)
  (Hr : 0 <= rhorat m)
  (HPhi : forall j, (j < no_depths m)%nat -> 0 < nth (4 * no_depths m + j) y 0 < 1) :
  exists u w, zeros_U m y = Some u /\ presum m <= u /\ zeros_W m y = Some w /\ w <= presum m.
Proof.
  assert (Hseq : forall g : nat -> R, map g (seq 0 (no_depths m)) <> []).
  { intros g. apply (nonempty_length _ (no_depths m));
      [rewrite length_map, length_seq; reflexivity | exact HN]. }
  pose proof (zeros_U_list m y Hy) as EU. cbv zeta in EU.
  pose proof (zeros_W_list m y Hy) as EW. cbv zeta in EW.
  destruct (amin_spec _ (Hseq (fl_U (fun_locals m y)))) as [u [Eu [Hu _]]].
  destruct (amax_spec _ (Hseq (fl_W (fun_locals m y)))) as [w [Ew [Hw _]]].
  exists u, w.
  unfold zeros_U, zeros_W. cbv zeta. rewrite EU, EW.
  apply in_map_iff in Hu as [j [Ej Hj]]. apply in_map_iff in Hw as [k [Ek Hk]].
  apply in_seq in Hj, Hk.
  destruct (fl_U_at m y j ltac:(lia)) as [Uj _]. destruct (fl_U_at m y k ltac:(lia)) as [_ Wk].
  pose proof (HPhi j ltac:(lia)) as Pj. pose proof (HPhi k ltac:(lia)) as Pk.
  split; [exact Eu|]. split.
  - rewrite <- Ej, Uj. set (P := nth (4 * no_depths m + j) y 0) in *.
    pose proof (F_pos P Pj).
    assert (0 <= rhorat m * P ^ 3 * (1 - exp (10 - 10 / P)) / (1 - P)).
    { unfold Rdiv. apply Rmult_le_pos; [|left; apply Rinv_0_lt_compat; lra].
      apply Rmult_le_pos; [apply Rmult_le_pos; [exact Hr | apply pow_le; lra] | lra]. }
    lra.
  - split; [exact Ew|]. rewrite <- Ek, Wk. set (P := nth (4 * no_depths m + k) y 0) in *.
    pose proof (F_pos P Pk).
    assert (0 <= rhorat m * P ^ 2 * (1 - exp (10 - 10 / P))).
    { apply Rmult_le_pos; [apply Rmult_le_pos; [exact Hr | apply pow_le; lra] | lra]. }
    lra.
Qed.

Lemma zeros_U_W_presum_witness :
  (length example_state = (5 * no_depths example_model)%nat /\
   (0 < no_depths example_model)%nat /\ 0 <= rhorat example_model /\
   (forall j, (j < no_depths example_model)%nat ->
      0 < nth (4 * no_depths example_model + j) example_state 0 < 1)) /\
  exists u w, zeros_U example_model example_state = Some u /\ presum example_model <= u /\
              zeros_W example_model example_state = Some w /\ w <= presum example_model.
Proof.
  assert (H1 : length example_state = (5 * no_depths example_model)%nat) by reflexivity.
  assert (H2 : (0 < no_depths example_model)%nat) by (simpl; lia).
  assert (H3 : 0 <= rhorat example_model) by (simpl; lra).
  assert (H4 : forall j, (j < no_depths example_model)%nat ->
                 0 < nth (4 * no_depths example_model + j) example_state 0 < 1).
  { intros j Hj. simpl in Hj. destruct j as [|[|j]]; [simpl; lra | simpl; lra | lia]. }
  split; [tauto|].
  exact (zeros_U_W_presum example_model example_state H1 H2 H3 H4).
Defined.

(** [__init__] chooses [presum] so that, when [rhos = rhos0], the solid
    velocity [U] that [fun] computes is exactly [1] at every cell whose
    porosity equals [Phi0]. *)
Theorem init_U_reference (a : InitArgs) (y : list R) (i : nat)
  (Hrho : a_rhos a = a_rhos0 a) (HPhi0 : 0 < a_Phi0 a < 1)
  (Hsed : a_sedimentationrate a <> 0) (Hrhow : a_rhow a <> 0)
  (Hi : (i < a_no_depths a)%nat)
  (HPhi : nth (4 * a_no_depths a + i) y 0 = a_Phi0 a) :
  fl_U (fun_locals (init a) y) i = 1.
Proof.
  destruct (fl_U_at (init a) y i Hi) as [E _]. rewrite E. cbv zeta in *.
  change (no_depths (init a)) with (a_no_depths a). rewrite HPhi.
  unfold init. cbn [presum rhorat]. rewrite Hrho. unfold Rdiv. ring.
Qed.

Lemma init_U_reference_witness :
  (a_rhos example_args = a_rhos0 example_args /\ 0 < a_Phi0 example_args < 1 /\
   a_sedimentationrate example_args <> 0 /\ a_rhow example_args <> 0 /\
   (0 < a_no_depths example_args)%nat /\
   nth (4 * a_no_depths example_args + 0) [1; 1; 1; 1; 1 / 2] 0 = a_Phi0 example_args) /\
  fl_U (fun_locals (init example_args) [1; 1; 1; 1; 1 / 2]) 0%nat = 1.
Proof.
  assert (H1 : a_rhos example_args = a_rhos0 example_args) by reflexivity.
  assert (H2 : 0 < a_Phi0 example_args < 1) by (simpl; lra).
  assert (H3 : a_sedimentationrate example_args <> 0) by (simpl; lra).
  assert (H4 : a_rhow example_args <> 0) by (simpl; lra).
  assert (H5 : (0 < a_no_depths example_args)%nat) by (simpl; lia).
  assert (H6 : nth (4 * a_no_depths example_args + 0) [1; 1; 1; 1; 1 / 2] 0
               = a_Phi0 example_args) by reflexivity.
  split; [tauto|].
  exact (init_U_reference example_args [1; 1; 1; 1; 1 / 2] 0 H1 H2 H3 H4 H5 H6).
Defined.

(** ** [rate = np.empty(5 * no_depths)] *)

Lemma pde_rhs_loop_any (N : nat) (cell : nat -> Cell) (buf : list R) (k : nat) :
  length buf = (5 * N)%nat -> (k <= N)%nat ->
  let rate := fold_left (pde_rhs_step N cell) (seq 0 k) buf in
  length rate = (5 * N)%nat /\
  forall f i, (f < 5)%nat -> (i < k)%nat -> nth (f * N + i) rate 0 = rate_of (cell i) f.
Proof.
  intros Hbuf. induction k as [|k IH]; intros Hk rate.
  - split; [exact Hbuf | intros; lia].
  - subst rate. rewrite seq_S, fold_left_app. cbn [fold_left].
    destruct (IH ltac:(lia)) as [Hlen Hval].
    set (old := fold_left (pde_rhs_step N cell) (seq 0 k) buf) in *.
    unfold pde_rhs_step.
    split; [rewrite !length_set_nth; exact Hlen|].
    intros f i Hf Hi.
    rewrite !nth_set_nth by (rewrite ?length_set_nth; lia).
    destruct (Nat.eq_dec i k) as [->|Hik].
    + destruct f as [|[|[|[|[|f]]]]]; try lia; simpl rate_of; decide_eqb; reflexivity.
    + assert (Hi' : (i < k)%nat) by lia.
      rewrite <- (Hval f i Hf Hi').
      destruct f as [|[|[|[|[|f]]]]]; try lia; decide_eqb; reflexivity.
Qed.

(** The loop of [pde_rhs] overwrites every entry of its output buffer:
    started from any buffer of [5 N] entries (whatever [np.empty] leaves
    in it), it returns the same vector. *)
Theorem pde_rhs_buffer_irrelevant (m : Model) (CA CC cCa cCO3 Phi CA_gb CC_gb cCa_gb cCa_gf
    cCa_lap cCO3_gb cCO3_gf cCO3_lap Phi_gb Phi_gf Phi_lap : arr) (dx : R) (N : nat)
    (buf : list R) (Hbuf : length buf = (5 * N)%nat) :
  fold_left
    (pde_rhs_step N
       (pde_rhs_cell m CA CC cCa cCO3 Phi CA_gb CC_gb cCa_gb cCa_gf cCa_lap
          cCO3_gb cCO3_gf cCO3_lap Phi_gb Phi_gf Phi_lap dx))
    (seq 0 N) buf
  = pde_rhs m CA CC cCa cCO3 Phi CA_gb CC_gb cCa_gb cCa_gf cCa_lap
      cCO3_gb cCO3_gf cCO3_lap Phi_gb Phi_gf Phi_lap dx N.
Proof.
  set (cell := pde_rhs_cell m CA CC cCa cCO3 Phi CA_gb CC_gb cCa_gb cCa_gf cCa_lap
                 cCO3_gb cCO3_gf cCO3_lap Phi_gb Phi_gf Phi_lap dx).
  destruct (pde_rhs_loop_any N cell buf N Hbuf (le_n N)) as [L1 V1].
  apply nth_ext with (d := 0) (d' := 0).
  { rewrite L1, length_pde_rhs. reflexivity. }
  intros k Hk. rewrite L1 in Hk.
  assert (HN : N <> 0%nat) by lia.
  pose proof (Nat.div_mod k N HN) as Hkd.
  pose proof (Nat.mod_upper_bound k N HN) as Hi.
  assert (Hf : (k / N < 5)%nat) by (apply Nat.Div0.div_lt_upper_bound; lia).
  replace k with (k / N * N + k mod N)%nat by (rewrite Hkd at 3; ring).
  rewrite (V1 _ _ Hf Hi). symmetry. apply nth_pde_rhs; assumption.
Qed.

Lemma pde_rhs_buffer_irrelevant_witness :
  length [7; 7; 7; 7; 7] = (5 * 1)%nat /\
  fold_left
    (pde_rhs_step 1
       (pde_rhs_cell example_model (cst 0) (cst 0) (cst 1) (cst 1) (cst (1 / 2))
          (cst 0) (cst 0) (cst 0) (cst 0) (cst 0) (cst 0) (cst 0) (cst 0)
          (cst 0) (cst 0) (cst 0) (1 / 2)))
    (seq 0 1) [7; 7; 7; 7; 7]
  = pde_rhs example_model (cst 0) (cst 0) (cst 1) (cst 1) (cst (1 / 2))
      (cst 0) (cst 0) (cst 0) (cst 0) (cst 0) (cst 0) (cst 0) (cst 0)
      (cst 0) (cst 0) (cst 0) (1 / 2) 1.
Proof.
  assert (H : length [7; 7; 7; 7; 7] = (5 * 1)%nat) by reflexivity.
  split; [exact H|].
  exact (pde_rhs_buffer_irrelevant example_model (cst 0) (cst 0) (cst 1) (cst 1) (cst (1 / 2))
           (cst 0) (cst 0) (cst 0) (cst 0) (cst 0) (cst 0) (cst 0) (cst 0)
           (cst 0) (cst 0) (cst 0) (1 / 2) 1 [7; 7; 7; 7; 7] H).
Defined.
